(** * maildir: a shallow embedding of [maildir.go]

    The package gives access to one mailbox in the Maildir format: a
    directory with the subdirectories [tmp], [new] and [cur], where a
    message is a file and its state is written in its name.

    The development has four layers:
    - Go strings ([strings.FieldsFunc]) over a single-byte alphabet;
    - the file tree the package runs against, and the [os] calls it makes;
    - [path/filepath]: [Join], [Match] and [Glob];
    - the package itself: [Unseen], [Keys], [Filename], [Header],
      [Message], and the delivery session the test helper drives.

    Go values [(v, err)] are pairs [(v, option error)]; a run-time panic
    (index out of range) is an outcome of its own. *)

From Stdlib Require Import List String Ascii Bool Arith ZArith Lia Permutation.
From Stdlib Require Import DecimalString DecimalZ.
From Stdlib.Init Require Import Byte.
Import ListNotations.

Local Open Scope string_scope.
Local Open Scope list_scope.

Notation "s +:+ t" := (String.append s t) (at level 60, right associativity).

(** ** Characters and strings *)

(** A Go string is a byte sequence.  File names and keys are taken over a
    single-byte alphabet, so that a rune is one [ascii] character. *)

Definition backslash : ascii := ascii_of_nat 92.

Definition is_empty (s : string) : bool :=
  match s with EmptyString => true | String _ _ => false end.

(** [strings.Contains(s, string(c))] for a one-character needle. *)
Fixpoint contains (c : ascii) (s : string) : bool :=
  match s with
  | EmptyString => false
  | String a s' => Ascii.eqb a c || contains c s'
  end.

(** [s] with the prefix [p] cut off, when [s] starts with [p]. *)
Fixpoint strip_prefix (p s : string) : option string :=
  match p with
  | EmptyString => Some s
  | String a p' =>
      match s with
      | EmptyString => None
      | String b s' => if Ascii.eqb a b then strip_prefix p' s' else None
      end
  end.

Definition has_prefix (p s : string) : bool :=
  match strip_prefix p s with Some _ => true | None => false end.

(** The part of [s] before the first occurrence of [c] (all of [s] when
    [c] does not occur): the key of a file name as the specification words
    it. *)
Fixpoint before_first (c : ascii) (s : string) : string :=
  match s with
  | EmptyString => EmptyString
  | String a s' => if Ascii.eqb a c then EmptyString else String a (before_first c s')
  end.

Module strings.

(** The loop of [strings.FieldsFunc]: [field] is the field being read
    (empty when no field is open, Go's [start < 0]). *)
Definition emit (field : string) (l : list string) : list string :=
  if is_empty field then l else field :: l.

Fixpoint fields (f : ascii -> bool) (field s : string) : list string :=
  match s with
  | EmptyString => emit field []
  | String c s' =>
      if f c then emit field (fields f EmptyString s')
      else fields f (field +:+ String c EmptyString) s'
  end.

(** [strings.FieldsFunc(s, f)]: the maximal runs of characters that do not
    satisfy [f]; no field is empty. *)
Definition FieldsFunc (s : string) (f : ascii -> bool) : list string :=
  fields f EmptyString s.

End strings.

(** ** Errors *)

Inductive errno := ENOENT | ENOTDIR | EISDIR | EEXIST | EINVAL.

(** A path is the list of the components of a cleaned path. *)
Definition path := list string.

Inductive error :=
| PathError (op : string) (p : path) (e : errno)
| LinkError (op : string) (old new : path) (e : errno)
| ErrBadPattern
| KeyError (Key : string) (N : Z)
| OtherError (msg : string).

(** ** The file tree *)

(** A node is a regular file with its bytes or a directory with its
    entries, in the order a directory listing enumerates them.  The tree is
    the whole name space of the process: paths start at its root, which is
    also the working directory. *)
#[warnings="-register-all"]
Inductive node :=
| File (data : list byte)
| Folder (entries : list (string * node)).

Definition FS := node.

Definition is_folder (x : node) : bool :=
  match x with Folder _ => true | File _ => false end.

Fixpoint find_entry (c : string) (es : list (string * node)) : option node :=
  match es with
  | [] => None
  | (k, x) :: es' => if String.eqb k c then Some x else find_entry c es'
  end.

Fixpoint lookup (p : path) (t : node) : option node :=
  match p with
  | [] => Some t
  | c :: p' =>
      match t with
      | File _ => None
      | Folder es =>
          match find_entry c es with
          | Some x => lookup p' x
          | None => None
          end
      end
  end.

(** The entries of the directory at [p]. *)
Definition entries_at (p : path) (t : node) : option (list (string * node)) :=
  match lookup p t with
  | Some (Folder es) => Some es
  | _ => None
  end.

Definition remove_entry (c : string) (es : list (string * node)) : list (string * node) :=
  filter (fun e => negb (String.eqb (fst e) c)) es.

(** Binds [c] to [x]: in place when the directory has an entry [c], at the
    end of the enumeration otherwise. *)
Fixpoint set_entry (c : string) (x : node) (es : list (string * node)) : list (string * node) :=
  match es with
  | [] => [(c, x)]
  | (k, y) :: es' => if String.eqb k c then (k, x) :: es' else (k, y) :: set_entry c x es'
  end.

Fixpoint map_entry (c : string) (g : node -> node) (es : list (string * node)) : list (string * node) :=
  match es with
  | [] => []
  | (k, y) :: es' => if String.eqb k c then (k, g y) :: es' else (k, y) :: map_entry c g es'
  end.

(** Rewrites the entries of the directory at [p] with [f]; a path that
    does not lead to a directory changes nothing. *)
Fixpoint alter (f : list (string * node) -> list (string * node)) (p : path) (t : node) : node :=
  match t with
  | File _ => t
  | Folder es =>
      match p with
      | [] => Folder (f es)
      | c :: p' => Folder (map_entry c (alter f p') es)
      end
  end.

(** A path as parent directory and last component. *)
Fixpoint split_last (p : path) : option (path * string) :=
  match p with
  | [] => None
  | [c] => Some ([], c)
  | c :: p' =>
      match split_last p' with
      | Some (dir, base) => Some (c :: dir, base)
      | None => None
      end
  end.

Definition path_eqb (p q : path) : bool :=
  if list_eq_dec string_dec p q then true else false.

Fixpoint is_prefix (p q : path) : bool :=
  match p, q with
  | [], _ => true
  | a :: p', b :: q' => String.eqb a b && is_prefix p' q'
  | _ :: _, [] => false
  end.

(** ** Outcomes and the state monad *)

(** A call returns a value and the file tree it leaves, or panics. *)
Inductive outcome (A : Type) :=
| Ret (a : A) (fs : FS)
| Panic (msg : string).

Arguments Ret {A} a fs.
Arguments Panic {A} msg.

Definition M (A : Type) : Type := FS -> outcome A.

Definition ret {A} (a : A) : M A := fun fs => Ret a fs.

Definition bind {A B} (m : M A) (k : A -> M B) : M B :=
  fun fs =>
    match m fs with
    | Ret a fs' => k a fs'
    | Panic msg => Panic msg
    end.

Definition panic {A} (msg : string) : M A := fun _ => Panic msg.

Notation "x <- m ;; k" := (bind m (fun x => k))
  (at level 61, m at next level, right associativity).
Notation "' pat <- m ;; k" := (bind m (fun x => match x with pat => k end))
  (at level 61, pat pattern, m at next level, right associativity).

(** Indexing: [s[0]] on a string and on a slice of strings. *)
Definition index_out_of_range : string := "index out of range [0] with length 0".

Definition byte0 (s : string) : M ascii :=
  match s with
  | EmptyString => panic index_out_of_range
  | String c _ => ret c
  end.

Definition elem0 (l : list string) : M string :=
  match l with
  | [] => panic index_out_of_range
  | x :: _ => ret x
  end.

(** ** The [os] package *)

Module os.

(** An open file is known by the path it was opened at. *)
Definition file := path.

(** [os.Open(name)]: directories open as well as regular files. *)
Definition Open (name : path) : M (file * option error) :=
  fun fs =>
    match lookup name fs with
    | Some _ => Ret (name, None) fs
    | None => Ret (name, Some (PathError "open" name ENOENT)) fs
    end.

(** [f.Readdirnames(0)]: all names of the directory, in directory order. *)
Definition Readdirnames (f : file) : M (list string * option error) :=
  fun fs =>
    match lookup f fs with
    | Some (Folder es) => Ret (map fst es, None) fs
    | Some (File _) => Ret ([], Some (PathError "readdirent" f ENOTDIR)) fs
    | None => Ret ([], Some (PathError "readdirent" f ENOENT)) fs
    end.

(** Reading an open file to its end. *)
Definition ReadAll (f : file) : M (list byte * option error) :=
  fun fs =>
    match lookup f fs with
    | Some (File data) => Ret (data, None) fs
    | Some (Folder _) => Ret ([], Some (PathError "read" f EISDIR)) fs
    | None => Ret ([], Some (PathError "read" f ENOENT)) fs
    end.

(** [os.Lstat(name)] as far as its callers look: is there such a node. *)
Definition Lstat (name : path) (fs : FS) : option node := lookup name fs.

(** The tree after moving the node [x] from [old] to [new]. *)
Definition move (old new : path) (x : node) (fs : FS) : FS :=
  match split_last old, split_last new with
  | Some (odir, obase), Some (ndir, nbase) =>
      alter (set_entry nbase x) ndir (alter (remove_entry obase) odir fs)
  | _, _ => fs
  end.

(** [os.Rename(oldpath, newpath)].  Go refuses a directory as target
    before the system call; the system call fails when the source is
    missing, when the target's directory is missing, when a directory
    would replace a regular file or be moved below itself; otherwise the
    node moves in one step and replaces a regular file at the target. *)
Definition Rename (old new : path) : M (option error) :=
  fun fs =>
    let fail e := Ret (Some (LinkError "rename" old new e)) fs in
    match lookup old fs with
    | None => fail ENOENT
    | Some x =>
        if path_eqb old new then Ret None fs
        else
          match lookup new fs with
          | Some (Folder _) => fail EEXIST
          | target =>
              match split_last old, split_last new with
              | Some _, Some (ndir, _) =>
                  match lookup ndir fs with
                  | None => fail ENOENT
                  | Some (File _) => fail ENOTDIR
                  | Some (Folder _) =>
                      if is_folder x && is_prefix old new then fail EINVAL
                      else
                        match x, target with
                        | Folder _, Some (File _) => fail ENOTDIR
                        | _, _ => Ret None (move old new x fs)
                        end
                  end
              | _, _ => fail EINVAL
              end
          end
    end.

(** [os.OpenFile(name, O_WRONLY|O_CREATE|O_EXCL, 0666)]: creates an empty
    regular file, and fails when the name exists. *)
Definition CreateExcl (name : path) : M (file * option error) :=
  fun fs =>
    match lookup name fs with
    | Some _ => Ret (name, Some (PathError "open" name EEXIST)) fs
    | None =>
        match split_last name with
        | None => Ret (name, Some (PathError "open" name EISDIR)) fs
        | Some (dir, base) =>
            match lookup dir fs with
            | Some (Folder _) => Ret (name, None) (alter (set_entry base (File [])) dir fs)
            | Some (File _) => Ret (name, Some (PathError "open" name ENOTDIR)) fs
            | None => Ret (name, Some (PathError "open" name ENOENT)) fs
            end
        end
    end.

(** [f.Write(b)] on a file opened for writing: appends [b]. *)
Definition Write (f : file) (b : list byte) : M (option error) :=
  fun fs =>
    match split_last f, lookup f fs with
    | Some (dir, base), Some (File data) =>
        Ret None (alter (set_entry base (File (data ++ b))) dir fs)
    | _, Some (Folder _) => Ret (Some (PathError "write" f EISDIR)) fs
    | _, _ => Ret (Some (PathError "write" f ENOENT)) fs
    end.

(** Why the walk along a path finds no node: a directory on the way has
    no entry of that name ([ENOENT]), or the way leads through a regular
    file ([ENOTDIR]). *)
Fixpoint missing (p : path) (t : node) : errno :=
  match p, t with
  | c :: p', Folder es =>
      match find_entry c es with
      | Some x => missing p' x
      | None => ENOENT
      end
  | _ :: _, File _ => ENOTDIR
  | [], _ => ENOENT
  end.

(** [os.Stat(name)]; the tree has no symbolic links. *)
Definition Stat (name : path) : M (option node * option error) :=
  fun fs =>
    match lookup name fs with
    | Some x => Ret (Some x, None) fs
    | None => Ret (None, Some (PathError "stat" name (missing name fs))) fs
    end.

(** [os.IsNotExist(err)] *)
Definition IsNotExist (e : error) : bool :=
  match e with
  | PathError _ _ ENOENT => true
  | LinkError _ _ _ ENOENT => true
  | _ => false
  end.

End os.

(** ** The [path/filepath] package (Unix) *)

Module filepath.

(** *** Join and Clean *)

(** The components of a path string, empty ones included. *)
Fixpoint split_slash (s : string) : list string :=
  match s with
  | EmptyString => [EmptyString]
  | String c s' =>
      if Ascii.eqb c "/" then EmptyString :: split_slash s'
      else
        match split_slash s' with
        | x :: xs => String c x :: xs
        | [] => [String c EmptyString]
        end
  end.

(** [Clean] on components: empty components and [.] go away, [..] erases
    the component before it and stays at the root.  [stack] holds the
    components kept so far, last one first. *)
Fixpoint clean (stack : list string) (cs : list string) : path :=
  match cs with
  | [] => rev stack
  | c :: cs' =>
      if String.eqb c "" then clean stack cs'
      else if String.eqb c "." then clean stack cs'
      else if String.eqb c ".." then clean (tl stack) cs'
      else clean (c :: stack) cs'
  end.

(** [filepath.Join(elem...)]: the elements joined by slashes, cleaned. *)
Definition Join (elem : list string) : path :=
  clean [] (flat_map split_slash elem).

(** [filepath.Join(dir, name)] for a [dir] that is a cleaned path. *)
Definition JoinPath (dir : path) (name : string) : path :=
  clean (rev dir) (split_slash name).

(** The path as the string Go holds. *)
Definition path_string (p : path) : string := String.concat "/" p.

(** *** Match *)

Definition is_magic (c : ascii) : bool :=
  Ascii.eqb c "*" || Ascii.eqb c "?" || Ascii.eqb c "[" || Ascii.eqb c backslash.

(** [hasMeta(path)]: does it hold one of the characters [Match] reads as
    more than themselves. *)
Fixpoint hasMeta (s : string) : bool :=
  match s with
  | EmptyString => false
  | String c s' => is_magic c || hasMeta s'
  end.

Fixpoint skipStars (star : bool) (pattern : string) : bool * string :=
  match pattern with
  | String c p' => if Ascii.eqb c "*" then skipStars true p' else (star, pattern)
  | EmptyString => (star, pattern)
  end.

Definition cons_chunk (c : ascii) (r : string * string) : string * string :=
  (String c (fst r), snd r).

(** The scan of [scanChunk]: the chunk runs up to the next star outside a
    character class. *)
Fixpoint scan (inrange : bool) (pattern : string) : string * string :=
  match pattern with
  | EmptyString => (EmptyString, EmptyString)
  | String c p' =>
      if Ascii.eqb c backslash then
        match p' with
        | EmptyString => (String c EmptyString, EmptyString)
        | String c2 p'' => cons_chunk c (cons_chunk c2 (scan inrange p''))
        end
      else if Ascii.eqb c "[" then cons_chunk c (scan true p')
      else if Ascii.eqb c "]" then cons_chunk c (scan false p')
      else if Ascii.eqb c "*" then
        if inrange then cons_chunk c (scan inrange p') else (EmptyString, pattern)
      else cons_chunk c (scan inrange p')
  end.

(** [scanChunk(pattern)]: was there a star, the chunk after it, the rest. *)
Definition scanChunk (pattern : string) : bool * string * string :=
  let (star, p) := skipStars false pattern in
  let (chunk, rest) := scan false p in
  (star, chunk, rest).

(** [getEsc(chunk)]: one possibly escaped character of a class; [None] is
    [ErrBadPattern]. *)
Definition getEsc (chunk : string) : option (ascii * string) :=
  match chunk with
  | EmptyString => None
  | String c rest =>
      if Ascii.eqb c "-" || Ascii.eqb c "]" then None
      else
        match (if Ascii.eqb c backslash then rest else chunk) with
        | EmptyString => None
        | String r nchunk => if is_empty nchunk then None else Some (r, nchunk)
        end
  end.

Definition in_range (lo r hi : ascii) : bool :=
  Nat.leb (nat_of_ascii lo) (nat_of_ascii r) && Nat.leb (nat_of_ascii r) (nat_of_ascii hi).

(** The ranges of a character class up to its closing bracket: whether [r]
    is in one of them, and what follows the class. *)
Fixpoint classRanges (fuel : nat) (r : ascii) (chunk : string) (nrange : nat) (matched : bool)
  : option (bool * string) :=
  match fuel with
  | 0 => None
  | S fuel' =>
      let ranges chunk :=
        match getEsc chunk with
        | None => None
        | Some (lo, chunk1) =>
            match chunk1 with
            | String c chunk2 =>
                if Ascii.eqb c "-" then
                  match getEsc chunk2 with
                  | None => None
                  | Some (hi, chunk3) =>
                      classRanges fuel' r chunk3 (S nrange) (matched || in_range lo r hi)
                  end
                else classRanges fuel' r chunk1 (S nrange) (matched || in_range lo r lo)
            | EmptyString => None
            end
        end in
      match chunk with
      | String c rest =>
          if Ascii.eqb c "]" && Nat.ltb 0 nrange then Some (matched, rest) else ranges chunk
      | EmptyString => ranges chunk
      end
  end.

(** The loop of [matchChunk]: once [failed], the chunk is still read to
    its end for its syntax, the name no more. *)
Fixpoint matchChunkLoop (fuel : nat) (chunk s : string) (failed : bool)
  : string * bool * option error :=
  match fuel with
  | 0 => (EmptyString, false, Some ErrBadPattern)
  | S fuel' =>
      match chunk with
      | EmptyString => if failed then (EmptyString, false, None) else (s, true, None)
      | String c chunk1 =>
          let failed := failed || is_empty s in
          let literal c chunk' :=
            match s with
            | String b s' =>
                if failed then matchChunkLoop fuel' chunk' s true
                else matchChunkLoop fuel' chunk' s' (negb (Ascii.eqb c b))
            | EmptyString => matchChunkLoop fuel' chunk' s true
            end in
          if Ascii.eqb c "[" then
            let r := match s with String b _ => if failed then zero else b | EmptyString => zero end in
            let s1 := match s with String _ s' => if failed then s else s' | EmptyString => s end in
            let negated := match chunk1 with String n _ => Ascii.eqb n "^" | EmptyString => false end in
            let chunk2 := match chunk1 with
                          | String n c2 => if Ascii.eqb n "^" then c2 else chunk1
                          | EmptyString => chunk1
                          end in
            match classRanges (S (String.length chunk2)) r chunk2 0 false with
            | None => (EmptyString, false, Some ErrBadPattern)
            | Some (matched, chunk3) =>
                matchChunkLoop fuel' chunk3 s1 (failed || Bool.eqb matched negated)
            end
          else if Ascii.eqb c "?" then
            match s with
            | String b s' =>
                if failed then matchChunkLoop fuel' chunk1 s true
                else matchChunkLoop fuel' chunk1 s' (Ascii.eqb b "/")
            | EmptyString => matchChunkLoop fuel' chunk1 s true
            end
          else if Ascii.eqb c backslash then
            match chunk1 with
            | EmptyString => (EmptyString, false, Some ErrBadPattern)
            | String c2 chunk2 => literal c2 chunk2
            end
          else literal c chunk1
      end
  end.

(** [matchChunk(chunk, s)]: the rest of [s] after the chunk, whether the
    chunk matched, a syntax error. *)
Definition matchChunk (chunk s : string) : string * bool * option error :=
  matchChunkLoop (S (String.length chunk)) chunk s false.

Inductive search := Found (t : string) | NotFound | SearchError (e : error).

(** The star of a chunk skips one character after the other, never a
    slash, until the chunk matches. *)
Fixpoint starSearch (chunk : string) (last : bool) (name : string) : search :=
  match name with
  | EmptyString => NotFound
  | String c name' =>
      if Ascii.eqb c "/" then NotFound
      else
        match matchChunk chunk name' with
        | (t, true, _) =>
            if last && negb (is_empty t) then starSearch chunk last name' else Found t
        | (_, false, Some e) => SearchError e
        | (_, false, None) => starSearch chunk last name'
        end
  end.

(** Before [Match] answers no, it reads the rest of the pattern for its
    syntax. *)
Fixpoint checkRest (fuel : nat) (pattern : string) : option error :=
  match fuel with
  | 0 => None
  | S fuel' =>
      if is_empty pattern then None
      else
        let '(_, chunk, rest) := scanChunk pattern in
        match matchChunk chunk EmptyString with
        | (_, _, Some e) => Some e
        | (_, _, None) => checkRest fuel' rest
        end
  end.

Fixpoint MatchLoop (fuel : nat) (pattern name : string) : bool * option error :=
  match fuel with
  | 0 => (false, Some ErrBadPattern)
  | S fuel' =>
      if is_empty pattern then (is_empty name, None)
      else
        let '(star, chunk, rest) := scanChunk pattern in
        if star && is_empty chunk then (negb (contains "/" name), None)
        else
          let no_match :=
            match checkRest (S (String.length rest)) rest with
            | Some e => (false, Some e)
            | None => (false, None)
            end in
          match matchChunk chunk name with
          | (t, ok, err) =>
              if ok && (is_empty t || negb (is_empty rest)) then MatchLoop fuel' rest t
              else
                match err with
                | Some e => (false, Some e)
                | None =>
                    if star then
                      match starSearch chunk (is_empty rest) name with
                      | Found t' => MatchLoop fuel' rest t'
                      | SearchError e => (false, Some e)
                      | NotFound => no_match
                      end
                    else no_match
                end
          end
  end.

(** [filepath.Match(pattern, name)]. *)
Definition Match (pattern name : string) : bool * option error :=
  MatchLoop (S (String.length pattern)) pattern name.

(** *** Glob *)

(** [sort.Strings]. *)
Fixpoint insert_sorted (x : string) (l : list string) : list string :=
  match l with
  | [] => [x]
  | y :: l' => if String.leb x y then x :: l else y :: insert_sorted x l'
  end.

Definition sort_strings (l : list string) : list string :=
  fold_right insert_sorted [] l.

(** The loop of [glob] over the sorted names of a directory. *)
Fixpoint glob_names (dir : path) (pattern : string) (names : list string) (matches : list path)
  : list path * option error :=
  match names with
  | [] => (matches, None)
  | n :: names' =>
      match Match pattern n with
      | (_, Some e) => (matches, Some e)
      | (true, None) => glob_names dir pattern names' (matches ++ [JoinPath dir n])
      | (false, None) => glob_names dir pattern names' matches
      end
  end.

(** [glob(dir, pattern, matches)]: the entries of [dir] that match;
    a [dir] that is no directory adds nothing and is no error. *)
Definition glob (dir : path) (pattern : string) (matches : list path) (fs : FS)
  : list path * option error :=
  match os.Lstat dir fs with
  | Some (Folder es) => glob_names dir pattern (sort_strings (map fst es)) matches
  | _ => (matches, None)
  end.

Fixpoint glob_each (dirs : list path) (pattern : string) (matches : list path) (fs : FS)
  : list path * option error :=
  match dirs with
  | [] => (matches, None)
  | d :: dirs' =>
      match glob d pattern matches fs with
      | (m, Some e) => (m, Some e)
      | (m, None) => glob_each dirs' pattern m fs
      end
  end.

(** [Glob] by the components of the pattern, last one first. *)
Fixpoint GlobRev (rpattern : list string) (fs : FS) : list path * option error :=
  let pattern := rev rpattern in
  match snd (Match (path_string pattern) EmptyString) with
  | Some e => ([], Some e)
  | None =>
      if negb (hasMeta (path_string pattern)) then
        match os.Lstat pattern fs with
        | Some _ => ([pattern], None)
        | None => ([], None)
        end
      else
        match rpattern with
        | [] => ([], None)
        | file :: rdir =>
            if negb (hasMeta (path_string (rev rdir))) then glob (rev rdir) file [] fs
            else
              match GlobRev rdir fs with
              | (_, Some e) => ([], Some e)
              | (m, None) => glob_each m file [] fs
              end
        end
  end.

(** [filepath.Glob(pattern)]: the paths that match, sorted within each
    directory; the only error is [ErrBadPattern].  It reads the tree and
    leaves it as it is. *)
Definition Glob (pattern : path) : M (list path * option error) :=
  fun fs => Ret (GlobRev (rev pattern) fs) fs.

End filepath.

(** ** The package [maildir] *)

(** [type Dir string]: the root directory of one mailbox. *)
Definition Dir := string.

(** The flags [Unseen] writes after the separator. *)
Definition seen_flags : string := "2,S".

Section Maildir.

(** [var Separator rune = ':']: set once, before any call. *)
Variable Separator : ascii.

(** The loop of [Unseen] over the names of [new]. *)
Fixpoint Unseen_loop (d : Dir) (names : list string) (keys : list string) : M (list string) :=
  match names with
  | [] => ret keys
  | n :: names' =>
      c <- byte0 n ;;
      if negb (Ascii.eqb c ".") then
        let split := strings.FieldsFunc n (fun r => Ascii.eqb r Separator) in
        k <- elem0 split ;;
        let keys := keys ++ [k] in
        _ <- os.Rename (filepath.Join [d; "new"; n])
                       (filepath.Join [d; "cur"; n +:+ String Separator seen_flags]) ;;
        Unseen_loop d names' keys
      else Unseen_loop d names' keys
  end.

(** [func (d Dir) Unseen() ([]string, error)] *)
Definition Unseen (d : Dir) : M (list string * option error) :=
  '(f, err) <- os.Open (filepath.Join [d; "new"]) ;;
  match err with
  | Some e => ret ([], Some e)
  | None =>
      '(names, err) <- os.Readdirnames f ;;
      match err with
      | Some e => ret ([], Some e)
      | None =>
          keys <- Unseen_loop d names [] ;;
          ret (keys, None)
      end
  end.

End Maildir.

(** The loop of [Keys] over the names of [cur]. *)
Fixpoint Keys_loop (names : list string) (keys : list string) : M (list string) :=
  match names with
  | [] => ret keys
  | n :: names' =>
      c <- byte0 n ;;
      if negb (Ascii.eqb c ".") then
        let split := strings.FieldsFunc n (fun r => Ascii.eqb r ":") in
        k <- elem0 split ;;
        Keys_loop names' (keys ++ [k])
      else Keys_loop names' keys
  end.

(** [func (d Dir) Keys() ([]string, error)] *)
Definition Keys (d : Dir) : M (list string * option error) :=
  '(f, err) <- os.Open (filepath.Join [d; "cur/"]) ;;
  match err with
  | Some e => ret ([], Some e)
  | None =>
      '(names, err) <- os.Readdirnames f ;;
      match err with
      | Some e => ret ([], Some e)
      | None =>
          keys <- Keys_loop names [] ;;
          ret (keys, None)
      end
  end.

(** [func (d Dir) Filename(key string) (string, error)]: the empty path
    stands for the empty string returned beside an error. *)
Definition Filename (d : Dir) (key : string) : M (path * option error) :=
  '(matches, err) <- filepath.Glob (filepath.Join [d; "cur"; key +:+ "*"]) ;;
  match err with
  | Some e => ret ([], Some e)
  | None =>
      let n := Z.of_nat (List.length matches) in
      if negb (Z.eqb n 1) then ret ([], Some (KeyError key n))
      else ret (hd [] matches, None)
  end.

Section Reading.

(** The mail parser is not part of the package: [textproto]'s
    [ReadMIMEHeader] and [mail.ReadMessage], each on the bytes of the
    file. *)
Variables (MIMEHeader Message_t : Type).
Variable ReadMIMEHeader : list byte -> MIMEHeader * option error.
Variable ReadMessage : list byte -> option Message_t * option error.
(** [&mail.Message{}] *)
Variable zero_message : Message_t.

(** [func (d Dir) Header(key string) (header mail.Header, err error)]:
    the header is [None] (nil) on every error path.  The buffered reader
    hands a failed read to [ReadMIMEHeader], which returns it. *)
Definition Header (d : Dir) (key : string) : M (option MIMEHeader * option error) :=
  '(filename, err) <- Filename d key ;;
  match err with
  | Some e => ret (None, Some e)
  | None =>
      '(file, err) <- os.Open filename ;;
      match err with
      | Some e => ret (None, Some e)
      | None =>
          '(data, err) <- os.ReadAll file ;;
          match err with
          | Some e => ret (None, Some e)
          | None =>
              let (hdr, err) := ReadMIMEHeader data in
              match err with
              | Some e => ret (None, Some e)
              | None => ret (Some hdr, None)
              end
          end
      end
  end.

(** [func (d Dir) Message(key string)]: a pointer to a message, and an
    error. *)
Definition Message (d : Dir) (key : string) : M (option Message_t * option error) :=
  '(filename, err) <- Filename d key ;;
  match err with
  | Some e => ret (Some zero_message, Some e)
  | None =>
      '(r, err) <- os.Open filename ;;
      match err with
      | Some e => ret (Some zero_message, Some e)
      | None =>
          '(buf, err) <- os.ReadAll r ;;
          match err with
          | Some e => ret (Some zero_message, Some e)
          | None =>
              let (msg, err) := ReadMessage buf in
              match err with
              | Some e => ret (msg, Some e)
              | None => ret (msg, None)
              end
          end
      end
  end.

End Reading.

(** ** Delivery *)

(** Modelled from the spec: the delivery session ([NewDelivery], [Write],
    [Close]) is not among the sources; the three steps follow section 4.2
    of the specification.  The key is the one the key generator hands out
    for this delivery. *)
Record Delivery := { file : os.file; dir : Dir; key : string }.

(** Modelled from the spec: Begin creates [tmp/<key>] exclusively. *)
Definition NewDelivery (d : Dir) (key : string) : M (option Delivery * option error) :=
  '(f, err) <- os.CreateExcl (filepath.Join [d; "tmp"; key]) ;;
  match err with
  | Some e => ret (None, Some e)
  | None => ret (Some {| file := f; dir := d; key := key |}, None)
  end.

(** Modelled from the spec: Write appends the bytes to the staged file. *)
Definition Write (del : Delivery) (p : list byte) : M (option error) :=
  os.Write (file del) p.

(** Modelled from the spec: Close renames [tmp/<key>] to [new/<key>]. *)
Definition Close (del : Delivery) : M (option error) :=
  os.Rename (filepath.Join [dir del; "tmp"; key del]) (filepath.Join [dir del; "new"; key del]).

(** [makeDelivery] of the tests: the first error ends the test
    ([t.Fatal]) and is the result here.  [key] is the key [NewDelivery]
    draws for this delivery. *)
Definition makeDelivery (d : Dir) (key : string) (msg : string) : M (option error) :=
  '(del, err) <- NewDelivery d key ;;
  match del, err with
  | Some del, None =>
      err <- Write del (list_byte_of_string msg) ;;
      match err with
      | Some e => ret (Some e)
      | None => Close del
      end
  | _, Some e => ret (Some e)
  | None, None => ret None
  end.

(** [cat] of the tests: the content of a file as a string. *)
Definition cat (p : path) : M (string * option error) :=
  '(f, err) <- os.Open p ;;
  match err with
  | Some e => ret (EmptyString, Some e)
  | None =>
      '(c, err) <- os.ReadAll f ;;
      match err with
      | Some e => ret (EmptyString, Some e)
      | None => ret (string_of_list_byte c, None)
      end
  end.

(** ** Vocabulary of the statements *)

(** A name a directory listing can hold: not empty, not [.] or [..], no
    slash. *)
Definition entry_name (n : string) : Prop :=
  n <> "" /\ n <> "." /\ n <> ".." /\ contains "/" n = false.

(** Dot files: the entries [Unseen] and [Keys] pass over. *)
Definition hidden (n : string) : bool :=
  match n with
  | String c _ => Ascii.eqb c "."
  | EmptyString => false
  end.

Definition visible (names : list string) : list string :=
  filter (fun n => negb (hidden n)) names.

(** The key the code takes from a name: the first field between
    separators. *)
Definition key_of (sep : ascii) (n : string) : string :=
  hd EmptyString (strings.FieldsFunc n (fun r => Ascii.eqb r sep)).

(** The name has a field, so that taking the first one is in range. *)
Definition has_key (sep : ascii) (n : string) : Prop :=
  strings.FieldsFunc n (fun r => Ascii.eqb r sep) <> [].

(** The name [Unseen] gives an entry in [cur]. *)
Definition seen_name (sep : ascii) (n : string) : string :=
  n +:+ String sep seen_flags.

(** Does [n] start with the key and go on without a slash: what the
    pattern [key*] asks of a name. *)
Definition key_matches (key n : string) : bool :=
  match strip_prefix key n with
  | Some t => negb (contains "/" t)
  | None => false
  end.

(** No character that [Match] reads as more than itself. *)
Definition plain (s : string) : Prop := filepath.hasMeta s = false.

(** The root of the mailbox and its subdirectories, as paths. *)
Definition root (d : Dir) : path := filepath.Join [d].

Definition sub (d : Dir) (s : string) : path := root d ++ [s].

Definition names_at (p : path) (fs : FS) : list string :=
  match entries_at p fs with
  | Some es => map fst es
  | None => []
  end.

(** Every rename of the scan over [names], started in [fs], succeeds. *)
Fixpoint renames_succeed (sep : ascii) (d : Dir) (names : list string) (fs : FS) : Prop :=
  match names with
  | [] => True
  | n :: names' =>
      if hidden n then renames_succeed sep d names' fs
      else
        exists fs',
          os.Rename (filepath.Join [d; "new"; n])
                    (filepath.Join [d; "cur"; seen_name sep n]) fs = Ret None fs'
          /\ renames_succeed sep d names' fs'
  end.

(** The tree after the renames of the scan, errors dropped. *)
Fixpoint after_renames (sep : ascii) (d : Dir) (names : list string) (fs : FS) : FS :=
  match names with
  | [] => fs
  | n :: names' =>
      if hidden n then after_renames sep d names' fs
      else
        match os.Rename (filepath.Join [d; "new"; n])
                        (filepath.Join [d; "cur"; seen_name sep n]) fs with
        | Ret _ fs' => after_renames sep d names' fs'
        | Panic _ => fs
        end
  end.

(** The paths [Filename] chooses among, for a plain key: the entries of
    [cur] whose name matches [key*]. *)
Definition candidates (d : Dir) (key : string) (fs : FS) : list path :=
  map (filepath.JoinPath (sub d "cur"))
      (filter (key_matches key) (filepath.sort_strings (names_at (sub d "cur") fs))).

(** Is [x] one of the names of [l]. *)
Definition listed (l : list string) (x : string) : bool := existsb (String.eqb x) l.

(** A mailbox [m] below the root, with the entries of its three
    subdirectories. *)
Definition mailbox (tmp new cur : list (string * node)) : FS :=
  Folder [("m", Folder [("tmp", Folder tmp); ("new", Folder new); ("cur", Folder cur)])].

(** Closes [Forall entry_name] over a list of string literals. *)
Ltac entry_names :=
  repeat first [apply Forall_nil | apply Forall_cons];
  repeat split; try discriminate; reflexivity.

(** Closes [renames_succeed] on a concrete tree: the renames of the scan,
    one after the other. *)
Ltac renames_done :=
  repeat (cbn [renames_succeed hidden Ascii.eqb Bool.eqb negb]; eexists; split; [reflexivity|]);
  exact I.

(** ** The rest of the package and of its tests *)

(** [strconv.Itoa(i)]: the decimal digits of [i], a minus sign before
    them when [i] is negative. *)
Definition Itoa (i : Z) : string := NilZero.string_of_int (Z.to_int i).

(** [func (e *KeyError) Error() string] *)
Definition KeyError_Error (Key : string) (N : Z) : string :=
  "maildir: key " +:+ Key +:+ " matches " +:+ Itoa N +:+ " files.".

(** The text of a system error. *)
Definition errno_text (e : errno) : string :=
  match e with
  | ENOENT => "no such file or directory"
  | ENOTDIR => "not a directory"
  | EISDIR => "is a directory"
  | EEXIST => "file exists"
  | EINVAL => "invalid argument"
  end.

(** [err.Error()] *)
Definition Error (e : error) : string :=
  match e with
  | PathError op p en =>
      op +:+ " " +:+ filepath.path_string p +:+ ": " +:+ errno_text en
  | LinkError op old new en =>
      op +:+ " " +:+ filepath.path_string old +:+ " " +:+ filepath.path_string new
         +:+ ": " +:+ errno_text en
  | ErrBadPattern => "syntax error in pattern"
  | KeyError k n => KeyError_Error k n
  | OtherError msg => msg
  end.

(** [exists] of the tests: [true] when [os.Stat] finds the node, [false]
    when it reports that the node does not exist, and a panic with the
    error on any other failure (a regular file on the way). *)
Definition exists_ (p : path) : M bool :=
  '(_, err) <- os.Stat p ;;
  match err with
  | None => ret true
  | Some e => if os.IsNotExist e then ret false else panic (Error e)
  end.

(** The name is made of separators and nothing else. *)
Fixpoint only_separators (sep : ascii) (n : string) : bool :=
  match n with
  | EmptyString => true
  | String c n' => Ascii.eqb c sep && only_separators sep n'
  end.

(** Two paths that part at some component: neither is on the way to the
    other. *)
Definition diverge (p q : path) : Prop :=
  exists c a b r r', p = c ++ a :: r /\ q = c ++ b :: r' /\ a <> b.

(** Splits on every [match] and [if] of a hypothesis. *)
Ltac break_in H :=
  repeat match type of H with
         | context [match ?x with _ => _ end] => destruct x eqn:?
         | context [if ?x then _ else _] => destruct x eqn:?
         end.

(** * Properties *)

(** ** Strings *)

Lemma append_nil_r (s : string) : s +:+ "" = s.
Proof. induction s as [|c s IH]; simpl; congruence. Qed.

Lemma append_assoc (s t u : string) : (s +:+ t) +:+ u = s +:+ t +:+ u.
Proof. induction s as [|c s IH]; simpl; congruence. Qed.

Lemma contains_append (c : ascii) (s t : string) :
  contains c (s +:+ t) = contains c s || contains c t.
Proof.
  induction s as [|a s IH]; simpl; [reflexivity|].
  rewrite IH. now rewrite orb_assoc.
Qed.

Lemma strip_prefix_append (p t : string) : strip_prefix p (p +:+ t) = Some t.
Proof.
  induction p as [|a p IH]; simpl; [reflexivity|].
  now rewrite Ascii.eqb_refl.
Qed.

Lemma strip_prefix_inv (p s t : string) : strip_prefix p s = Some t -> s = p +:+ t.
Proof.
  revert s. induction p as [|a p IH]; intros s H; simpl in *.
  - congruence.
  - destruct s as [|b s]; [discriminate|].
    destruct (Ascii.eqb_spec a b) as [->|]; [|discriminate].
    simpl. f_equal. now apply IH.
Qed.

Lemma has_prefix_append (p t : string) : has_prefix p (p +:+ t) = true.
Proof. unfold has_prefix. now rewrite strip_prefix_append. Qed.

(** A prefix without the separator cannot reach into the flags: if it is
    a prefix of [n] followed by a separator, it is a prefix of [n]. *)
Lemma has_prefix_before_sep (c : ascii) (k n t : string) :
  contains c k = false ->
  has_prefix k (n +:+ String c t) = true ->
  has_prefix k n = true.
Proof.
  unfold has_prefix. revert n.
  induction k as [|a k IH]; intros n Hk H; simpl in *; [reflexivity|].
  apply orb_false_iff in Hk as [Hac Hk].
  destruct n as [|b n]; simpl in *.
  - now rewrite Hac in H.
  - destruct (Ascii.eqb a b); [now apply IH | discriminate].
Qed.

Lemma before_first_absent (c : ascii) (s : string) :
  contains c s = false -> before_first c s = s.
Proof.
  induction s as [|a s IH]; simpl; [reflexivity|].
  intros H. apply orb_false_iff in H as [-> H]. now rewrite IH.
Qed.

(** ** [strings.FieldsFunc] *)

(** With a field open, the first field is what was read of it followed by
    the text up to the next separator. *)
Lemma fields_open (sep : ascii) (field s : string) :
  is_empty field = false ->
  exists l,
    strings.fields (fun r => Ascii.eqb r sep) field s = (field +:+ before_first sep s) :: l.
Proof.
  revert field. induction s as [|a s IH]; intros field Hf; simpl.
  - destruct field; [discriminate|]. rewrite append_nil_r. now eexists.
  - destruct (Ascii.eqb a sep).
    + destruct field; [discriminate|]. rewrite append_nil_r. now eexists.
    + destruct (IH (field +:+ String a "")) as [l Hl].
      { now destruct field. }
      exists l. rewrite Hl. f_equal. now rewrite append_assoc.
Qed.

(** A name that does not start with the separator has a key, and it is the
    part before the first separator. *)
Lemma FieldsFunc_first (sep a : ascii) (s : string) :
  Ascii.eqb a sep = false ->
  exists l,
    strings.FieldsFunc (String a s) (fun r => Ascii.eqb r sep)
    = before_first sep (String a s) :: l.
Proof.
  intros Ha. unfold strings.FieldsFunc. simpl. rewrite Ha.
  destruct (fields_open sep (String a "") s eq_refl) as [l Hl].
  exists l. exact Hl.
Qed.

Lemma key_of_before_first (sep a : ascii) (s : string) :
  Ascii.eqb a sep = false -> key_of sep (String a s) = before_first sep (String a s).
Proof.
  intros Ha. unfold key_of.
  destruct (FieldsFunc_first sep a s Ha) as [l ->]. reflexivity.
Qed.

Lemma has_key_first (sep a : ascii) (s : string) :
  Ascii.eqb a sep = false -> has_key sep (String a s).
Proof.
  intros Ha. unfold has_key.
  destruct (FieldsFunc_first sep a s Ha) as [l ->]. discriminate.
Qed.

(** A name without separator is its own key. *)
Lemma key_of_no_separator (sep : ascii) (n : string) :
  n <> "" -> contains sep n = false -> key_of sep n = n /\ has_key sep n.
Proof.
  intros Hn Hc. destruct n as [|a s]; [congruence|].
  assert (Ha : Ascii.eqb a sep = false).
  { simpl in Hc. now apply orb_false_iff in Hc as [-> _]. }
  split.
  - rewrite key_of_before_first by exact Ha. now apply before_first_absent.
  - now apply has_key_first.
Qed.

(** ** The file tree *)

Lemma find_entry_map_same (c : string) (g : node -> node) (es : list (string * node)) :
  find_entry c (map_entry c g es) = option_map g (find_entry c es).
Proof.
  induction es as [|[k y] es IH]; simpl; [reflexivity|].
  destruct (String.eqb k c) eqn:E; simpl; rewrite E; auto.
Qed.

Lemma find_entry_map_other (a b : string) (g : node -> node) (es : list (string * node)) :
  a <> b -> find_entry b (map_entry a g es) = find_entry b es.
Proof.
  intros Hab. induction es as [|[k y] es IH]; simpl; [reflexivity|].
  destruct (String.eqb_spec k a) as [->|Hka]; simpl.
  - destruct (String.eqb_spec a b); [contradiction | reflexivity].
  - now rewrite IH.
Qed.

Lemma find_entry_set_same (c : string) (x : node) (es : list (string * node)) :
  find_entry c (set_entry c x es) = Some x.
Proof.
  induction es as [|[k y] es IH]; simpl.
  - now rewrite String.eqb_refl.
  - destruct (String.eqb k c) eqn:E; simpl; rewrite E; auto.
Qed.

Lemma find_entry_set_other (a b : string) (x : node) (es : list (string * node)) :
  a <> b -> find_entry b (set_entry a x es) = find_entry b es.
Proof.
  intros Hab. induction es as [|[k y] es IH]; simpl.
  - destruct (String.eqb_spec a b); [contradiction | reflexivity].
  - destruct (String.eqb_spec k a) as [->|Hka]; simpl.
    + destruct (String.eqb_spec a b); [contradiction | reflexivity].
    + now rewrite IH.
Qed.

Lemma find_entry_remove_same (c : string) (es : list (string * node)) :
  find_entry c (remove_entry c es) = None.
Proof.
  induction es as [|[k y] es IH]; simpl; [reflexivity|].
  destruct (String.eqb k c) eqn:E; simpl; [|rewrite E]; auto.
Qed.

Lemma find_entry_remove_other (a b : string) (es : list (string * node)) :
  a <> b -> find_entry b (remove_entry a es) = find_entry b es.
Proof.
  intros Hab. induction es as [|[k y] es IH]; simpl; [reflexivity|].
  destruct (String.eqb_spec k a) as [->|Hka]; simpl.
  - destruct (String.eqb_spec a b); [contradiction | exact IH].
  - now rewrite IH.
Qed.

Lemma find_entry_none (c : string) (es : list (string * node)) :
  find_entry c es = None <-> ~ In c (map fst es).
Proof.
  induction es as [|[k y] es IH]; simpl; [tauto|].
  destruct (String.eqb_spec k c) as [->|Hkc]; [|tauto].
  split; [discriminate | intros H; exfalso; apply H; now left].
Qed.

Lemma set_entry_absent (c : string) (x : node) (es : list (string * node)) :
  find_entry c es = None -> set_entry c x es = es ++ [(c, x)].
Proof.
  induction es as [|[k y] es IH]; simpl; [reflexivity|].
  destruct (String.eqb k c); [discriminate|]. intros H. now rewrite IH.
Qed.

Lemma names_set_entry (c : string) (x : node) (es : list (string * node)) (n : string) :
  In n (map fst (set_entry c x es)) -> n = c \/ In n (map fst es).
Proof.
  induction es as [|[k y] es IH]; simpl.
  - intros [H|[]]; auto.
  - destruct (String.eqb_spec k c) as [->|Hkc]; simpl; intros [H|H]; auto.
    destruct (IH H); auto.
Qed.

Lemma names_remove_entry (c : string) (es : list (string * node)) :
  map fst (remove_entry c es) = filter (fun n => negb (String.eqb n c)) (map fst es).
Proof.
  induction es as [|[k y] es IH]; simpl; [reflexivity|].
  destruct (String.eqb k c); simpl; now rewrite IH.
Qed.

Lemma lookup_app (p q : path) (t : node) :
  lookup (p ++ q) t = match lookup p t with Some x => lookup q x | None => None end.
Proof.
  revert t. induction p as [|c p IH]; intros t; simpl; [reflexivity|].
  destruct t as [|es]; [reflexivity|].
  destruct (find_entry c es); [apply IH | reflexivity].
Qed.

(** Looking an entry up goes through the entries of its directory. *)
Lemma lookup_snoc (p : path) (c : string) (t : node) :
  lookup (p ++ [c]) t =
  match entries_at p t with Some es => find_entry c es | None => None end.
Proof.
  rewrite lookup_app. unfold entries_at.
  destruct (lookup p t) as [[|es]|]; simpl; try reflexivity.
  now destruct (find_entry c es).
Qed.

Lemma entries_lookup (p : path) (es : list (string * node)) (fs : FS) :
  entries_at p fs = Some es -> lookup p fs = Some (Folder es).
Proof.
  unfold entries_at. destruct (lookup p fs) as [[data|es']|]; try discriminate.
  now intros [= ->].
Qed.

Lemma split_last_snoc (p : path) (c : string) : split_last (p ++ [c]) = Some (p, c).
Proof.
  induction p as [|a p IH]; simpl; [reflexivity|].
  rewrite IH. destruct (p ++ [c]) eqn:E; [now destruct p | reflexivity].
Qed.

Lemma entries_at_alter_same (f : list (string * node) -> list (string * node)) (p : path) (t : node) :
  entries_at p (alter f p t) = option_map f (entries_at p t).
Proof.
  unfold entries_at. revert t. induction p as [|c p IH]; intros [data|es]; simpl; try reflexivity.
  rewrite find_entry_map_same. destruct (find_entry c es) as [x|]; simpl; [apply IH | reflexivity].
Qed.

(** Rewriting below one entry of a directory leaves what is below another
    entry as it was. *)
Lemma lookup_alter_other (f : list (string * node) -> list (string * node))
      (dp : path) (a b : string) (r q : path) (t : node) :
  a <> b ->
  lookup (dp ++ b :: q) (alter f (dp ++ a :: r) t) = lookup (dp ++ b :: q) t.
Proof.
  intros Hab. revert t. induction dp as [|c dp IH]; intros [data|es]; simpl; try reflexivity.
  - now rewrite find_entry_map_other.
  - rewrite find_entry_map_same. destruct (find_entry c es) as [x|]; simpl; [apply IH | reflexivity].
Qed.

Lemma entries_at_alter_other (f : list (string * node) -> list (string * node))
      (dp : path) (a b : string) (t : node) :
  a <> b ->
  entries_at (dp ++ [b]) (alter f (dp ++ [a]) t) = entries_at (dp ++ [b]) t.
Proof.
  intros Hab. unfold entries_at. now rewrite lookup_alter_other.
Qed.

Lemma is_prefix_diverge (dp : path) (a b : string) (r q : path) :
  a <> b -> is_prefix (dp ++ a :: r) (dp ++ b :: q) = false.
Proof.
  intros Hab. induction dp as [|c dp IH]; simpl.
  - destruct (String.eqb_spec a b); [contradiction | reflexivity].
  - now rewrite String.eqb_refl.
Qed.

Lemma path_eqb_diverge (dp : path) (a b : string) (r q : path) :
  a <> b -> path_eqb (dp ++ a :: r) (dp ++ b :: q) = false.
Proof.
  intros Hab. unfold path_eqb.
  destruct (list_eq_dec string_dec (dp ++ a :: r) (dp ++ b :: q)) as [E|]; [|reflexivity].
  apply app_inv_head in E. congruence.
Qed.

(** ** [os.Rename] between two subdirectories *)

(** A rename returns, and a failed one leaves the tree as it was. *)
Lemma Rename_returns (old new : path) (fs : FS) :
  exists e fs', os.Rename old new fs = Ret e fs' /\ (e <> None -> fs' = fs).
Proof.
  unfold os.Rename.
  destruct (lookup old fs) as [x|]; [|eauto].
  destruct (path_eqb old new); [eauto|].
  destruct (lookup new fs) as [[data|es]|], (split_last old) as [[odir obase]|],
    (split_last new) as [[ndir nbase]|]; eauto;
    destruct (lookup ndir fs) as [[data'|es']|]; eauto;
    destruct (is_folder x && is_prefix old new); eauto;
    destruct x; eauto; eexists _, _; (split; [reflexivity | congruence]).
Qed.

Section RenameBetween.

Variables (dp : path) (a b : string).
Hypothesis Hab : a <> b.

Lemma paths_differ (n m : string) :
  path_eqb ((dp ++ [a]) ++ [n]) ((dp ++ [b]) ++ [m]) = false.
Proof. rewrite <- !app_assoc. simpl. now apply path_eqb_diverge. Qed.

Lemma not_below (n m : string) :
  is_prefix ((dp ++ [a]) ++ [n]) ((dp ++ [b]) ++ [m]) = false.
Proof. rewrite <- !app_assoc. simpl. now apply is_prefix_diverge. Qed.

(** What a successful rename found, and the tree it leaves. *)
Lemma Rename_ok_inv (n m : string) (fs fs' : FS) :
  os.Rename ((dp ++ [a]) ++ [n]) ((dp ++ [b]) ++ [m]) fs = Ret None fs' ->
  exists x ses tes,
    entries_at (dp ++ [a]) fs = Some ses /\ find_entry n ses = Some x /\
    entries_at (dp ++ [b]) fs = Some tes /\
    fs' = alter (set_entry m x) (dp ++ [b]) (alter (remove_entry n) (dp ++ [a]) fs).
Proof.
  unfold os.Rename, os.move.
  rewrite paths_differ, not_below, !split_last_snoc.
  rewrite (lookup_snoc (dp ++ [a]) n), (lookup_snoc (dp ++ [b]) m).
  destruct (entries_at (dp ++ [a]) fs) as [ses|]; [|discriminate].
  destruct (find_entry n ses) as [x|] eqn:En; [|discriminate].
  rewrite andb_false_r.
  unfold entries_at.
  destruct (lookup (dp ++ [b]) fs) as [[data|tes]|] eqn:ET; try discriminate.
  intros H. exists x, ses, tes.
  assert (fs' = alter (set_entry m x) (dp ++ [b]) (alter (remove_entry n) (dp ++ [a]) fs)).
  { destruct (find_entry m tes) as [[data|es]|], x; try discriminate; congruence. }
  auto.
Qed.

(** A regular file moves onto a free name of an existing directory. *)
Lemma Rename_file_ok (n m : string) (fs : FS) (ses tes : list (string * node)) (data : list byte) :
  entries_at (dp ++ [a]) fs = Some ses -> find_entry n ses = Some (File data) ->
  entries_at (dp ++ [b]) fs = Some tes -> find_entry m tes = None ->
  os.Rename ((dp ++ [a]) ++ [n]) ((dp ++ [b]) ++ [m]) fs
  = Ret None (alter (set_entry m (File data)) (dp ++ [b])
                (alter (remove_entry n) (dp ++ [a]) fs)).
Proof.
  intros HS Hn HT Hm. unfold os.Rename, os.move.
  rewrite paths_differ, not_below, !split_last_snoc.
  rewrite (lookup_snoc (dp ++ [a]) n), (lookup_snoc (dp ++ [b]) m).
  rewrite HS, Hn, HT, Hm, andb_false_r.
  unfold entries_at in HT. destruct (lookup (dp ++ [b]) fs) as [[|tes']|]; try discriminate.
  reflexivity.
Qed.

(** The two directories after the move. *)
Lemma moved_source (f g : list (string * node) -> list (string * node)) (fs : FS) :
  entries_at (dp ++ [a]) (alter g (dp ++ [b]) (alter f (dp ++ [a]) fs))
  = option_map f (entries_at (dp ++ [a]) fs).
Proof.
  rewrite entries_at_alter_other by congruence.
  apply entries_at_alter_same.
Qed.

Lemma moved_target (f g : list (string * node) -> list (string * node)) (fs : FS) :
  entries_at (dp ++ [b]) (alter g (dp ++ [b]) (alter f (dp ++ [a]) fs))
  = option_map g (entries_at (dp ++ [b]) fs).
Proof.
  rewrite entries_at_alter_same. f_equal.
  now apply entries_at_alter_other.
Qed.

(** A third subdirectory sees nothing of the move. *)
Lemma moved_elsewhere (f g : list (string * node) -> list (string * node)) (c : string) (fs : FS) :
  c <> a -> c <> b ->
  entries_at (dp ++ [c]) (alter g (dp ++ [b]) (alter f (dp ++ [a]) fs))
  = entries_at (dp ++ [c]) fs.
Proof.
  intros Hca Hcb.
  rewrite entries_at_alter_other by congruence.
  now rewrite entries_at_alter_other by congruence.
Qed.

End RenameBetween.

(** ** [filepath.Join] *)

Lemma split_slash_plain (s : string) : contains "/" s = false -> filepath.split_slash s = [s].
Proof.
  induction s as [|c s IH]; simpl; [reflexivity|].
  intros H. apply orb_false_iff in H as [-> H]. now rewrite IH.
Qed.

Lemma clean_app (stack cs1 cs2 : list string) :
  filepath.clean stack (cs1 ++ cs2) = filepath.clean (rev (filepath.clean stack cs1)) cs2.
Proof.
  revert stack. induction cs1 as [|c cs1 IH]; intros stack; simpl.
  - now rewrite rev_involutive.
  - destruct (String.eqb c ""), (String.eqb c "."), (String.eqb c ".."); apply IH.
Qed.

Lemma clean_entry_name (stack : list string) (n : string) :
  entry_name n -> filepath.clean stack [n] = rev stack ++ [n].
Proof.
  intros (H1 & H2 & H3 & _). simpl.
  destruct (String.eqb_spec n ""); [contradiction|].
  destruct (String.eqb_spec n "."); [contradiction|].
  destruct (String.eqb_spec n ".."); [contradiction|].
  reflexivity.
Qed.

Lemma Join_sub (d : Dir) (s : string) : entry_name s -> filepath.Join [d; s] = sub d s.
Proof.
  intros Hs. unfold filepath.Join, sub, root, filepath.Join. simpl.
  rewrite !app_nil_r, clean_app.
  rewrite (split_slash_plain s) by apply Hs.
  rewrite clean_entry_name by exact Hs. now rewrite rev_involutive.
Qed.

Lemma Join_entry (d : Dir) (s n : string) :
  entry_name s -> entry_name n -> filepath.Join [d; s; n] = sub d s ++ [n].
Proof.
  intros Hs Hn. rewrite <- (Join_sub d s Hs). unfold filepath.Join. simpl.
  rewrite !app_nil_r, app_assoc, clean_app.
  rewrite (split_slash_plain n) by apply Hn.
  rewrite clean_entry_name by exact Hn. now rewrite rev_involutive.
Qed.

Lemma JoinPath_entry (dir : path) (n : string) :
  entry_name n -> filepath.JoinPath dir n = dir ++ [n].
Proof.
  intros Hn. unfold filepath.JoinPath.
  rewrite (split_slash_plain n) by apply Hn.
  rewrite clean_entry_name by exact Hn. now rewrite rev_involutive.
Qed.

Lemma entry_name_new : entry_name "new".
Proof. repeat split; discriminate. Qed.

Lemma entry_name_cur : entry_name "cur".
Proof. repeat split; discriminate. Qed.

Lemma entry_name_tmp : entry_name "tmp".
Proof. repeat split; discriminate. Qed.

(** [Keys] opens [cur/]: the same directory. *)
Lemma Join_cur_slash (d : Dir) : filepath.Join [d; "cur/"] = sub d "cur".
Proof.
  rewrite <- (Join_sub d "cur" entry_name_cur). unfold filepath.Join. simpl.
  rewrite !clean_app. reflexivity.
Qed.

Lemma append_not_empty (s : string) (c : ascii) (t : string) : s +:+ String c t <> "".
Proof. now destruct s. Qed.

(** The name [Unseen] writes is a name a directory can hold. *)
Lemma entry_name_seen (sep : ascii) (n : string) :
  sep <> "/"%char -> entry_name n -> entry_name (seen_name sep n).
Proof.
  intros Hsep (H1 & H2 & H3 & H4). unfold seen_name, seen_flags.
  destruct n as [|a n]; [congruence|]. repeat split.
  - discriminate.
  - simpl. intros E. injection E as _ E. now apply append_not_empty in E.
  - simpl. intros E. injection E as _ E.
    destruct n as [|b n]; simpl in E; [discriminate|].
    injection E as _ E. now apply append_not_empty in E.
  - rewrite contains_append, H4. simpl.
    destruct (Ascii.eqb_spec sep "/"); [contradiction | reflexivity].
Qed.

(** A key without slash and a star make one component of the pattern. *)
Lemma entry_name_pattern (key : string) :
  contains "/" key = false -> entry_name (key +:+ "*").
Proof.
  intros Hk. repeat split.
  - apply append_not_empty.
  - destruct key as [|a key]; simpl; [discriminate|].
    intros E. injection E as _ E. now apply append_not_empty in E.
  - destruct key as [|a key]; simpl; [discriminate|].
    intros E. injection E as _ E.
    destruct key as [|b key]; simpl in E; [discriminate|].
    injection E as _ E. now apply append_not_empty in E.
  - rewrite contains_append, Hk. reflexivity.
Qed.

Lemma length_append (s t : string) :
  String.length (s +:+ t) = String.length s + String.length t.
Proof. induction s as [|c s IH]; simpl; [reflexivity | now rewrite IH]. Qed.

Lemma append_cancel_r (s s' t : string) : s +:+ t = s' +:+ t -> s = s'.
Proof.
  revert s'. induction s as [|a s IH]; intros [|b s'] E; simpl in E.
  - reflexivity.
  - apply (f_equal String.length) in E. simpl in E. rewrite length_append in E. lia.
  - apply (f_equal String.length) in E. simpl in E. rewrite length_append in E. lia.
  - injection E as -> E. f_equal. now apply IH.
Qed.

Lemma seen_name_inj (sep : ascii) (n m : string) : seen_name sep n = seen_name sep m -> n = m.
Proof. apply append_cancel_r. Qed.

(** ** [filepath.Match] on a plain prefix followed by a star *)

Lemma hasMeta_append (s t : string) :
  filepath.hasMeta (s +:+ t) = filepath.hasMeta s || filepath.hasMeta t.
Proof.
  induction s as [|c s IH]; simpl; [reflexivity|].
  now rewrite IH, orb_assoc.
Qed.

Lemma is_magic_false (c : ascii) :
  filepath.is_magic c = false ->
  Ascii.eqb c "*" = false /\ Ascii.eqb c "?" = false /\
  Ascii.eqb c "[" = false /\ Ascii.eqb c backslash = false.
Proof.
  unfold filepath.is_magic. intros H.
  apply orb_false_iff in H as [H H4]. apply orb_false_iff in H as [H H3].
  apply orb_false_iff in H as [H1 H2]. auto.
Qed.

Lemma scan_plain (s : string) :
  filepath.hasMeta s = false -> filepath.scan false (s +:+ "*") = (s, "*").
Proof.
  induction s as [|c s IH]; simpl; [reflexivity|].
  intros H. apply orb_false_iff in H as [Hc Hs].
  apply is_magic_false in Hc as (H1 & H2 & H3 & H4).
  rewrite H4, H3, H1, (IH Hs). now destruct (Ascii.eqb c "]").
Qed.

Lemma scanChunk_plain (c : ascii) (s : string) :
  filepath.hasMeta (String c s) = false ->
  filepath.scanChunk (String c s +:+ "*") = (false, String c s, "*").
Proof.
  intros H. unfold filepath.scanChunk.
  assert (Hc : Ascii.eqb c "*" = false).
  { simpl in H. apply orb_false_iff in H as [Hc _]. now apply is_magic_false in Hc. }
  change (String c s +:+ "*") with (String c (s +:+ "*")) at 1.
  cbn [filepath.skipStars]. rewrite Hc.
  change (String c (s +:+ "*")) with (String c s +:+ "*").
  now rewrite scan_plain.
Qed.

(** A chunk without metacharacters is compared with the name character by
    character. *)
Lemma matchChunkLoop_plain (chunk : string) :
  filepath.hasMeta chunk = false ->
  forall (fuel : nat) (s : string) (failed : bool),
    String.length chunk < fuel ->
    filepath.matchChunkLoop fuel chunk s failed =
    if failed then (EmptyString, false, None)
    else
      match strip_prefix chunk s with
      | Some t => (t, true, None)
      | None => (EmptyString, false, None)
      end.
Proof.
  induction chunk as [|c chunk IH]; intros Hm fuel s failed Hfuel.
  - destruct fuel; [simpl in Hfuel; lia|]. simpl. now destruct failed.
  - destruct fuel as [|fuel]; [simpl in Hfuel; lia|].
    simpl in Hm, Hfuel. apply orb_false_iff in Hm as [Hc Hm].
    apply is_magic_false in Hc as (H1 & H2 & H3 & H4).
    cbn [filepath.matchChunkLoop]. rewrite H3, H2, H4.
    destruct s as [|b s]; simpl is_empty.
    + rewrite IH by (auto; lia). now destruct failed.
    + rewrite orb_false_r. destruct failed.
      * now rewrite IH by (auto; lia).
      * rewrite IH by (auto; lia). simpl.
        now destruct (Ascii.eqb c b).
Qed.

Lemma matchChunk_plain (chunk s : string) :
  filepath.hasMeta chunk = false ->
  filepath.matchChunk chunk s =
  match strip_prefix chunk s with
  | Some t => (t, true, None)
  | None => (EmptyString, false, None)
  end.
Proof.
  intros H. unfold filepath.matchChunk. now rewrite matchChunkLoop_plain by (auto; lia).
Qed.

Lemma Match_star (name : string) :
  filepath.Match "*" name = (negb (contains "/" name), None).
Proof. reflexivity. Qed.

(** [Match] on [key*], for a key without metacharacters: no error, and a
    match exactly on the names that start with the key. *)
Lemma Match_plain_star (key name : string) :
  filepath.hasMeta key = false ->
  filepath.Match (key +:+ "*") name = (key_matches key name, None).
Proof.
  intros Hm. destruct key as [|c key]; [apply Match_star|].
  unfold filepath.Match, key_matches.
  cbn [filepath.MatchLoop]. change (is_empty (String c key +:+ "*")) with false.
  cbv iota. rewrite scanChunk_plain by exact Hm.
  cbv iota beta. rewrite andb_false_l.
  rewrite matchChunk_plain by exact Hm.
  destruct (strip_prefix (String c key) name) as [t|].
  - cbv iota beta. rewrite andb_true_l. change (is_empty "*") with false.
    rewrite orb_true_r. rewrite length_append. simpl String.length.
    replace (String.length key + 1) with (S (String.length key)) by lia.
    reflexivity.
  - reflexivity.
Qed.

(** ** [sort.Strings] *)

Lemma insert_sorted_perm (x : string) (l : list string) :
  Permutation (filepath.insert_sorted x l) (x :: l).
Proof.
  induction l as [|y l IH]; simpl; [auto|].
  destruct (String.leb x y); [auto|].
  rewrite IH. apply perm_swap.
Qed.

Lemma sort_strings_perm (l : list string) : Permutation (filepath.sort_strings l) l.
Proof.
  induction l as [|x l IH]; simpl; [auto|].
  rewrite insert_sorted_perm. now constructor.
Qed.

Lemma filter_perm {A} (f : A -> bool) (l l' : list A) :
  Permutation l l' -> Permutation (filter f l) (filter f l').
Proof.
  induction 1 as [|x l l' _ IH|x y l|l l' l'' _ IH1 _ IH2]; simpl.
  - constructor.
  - destruct (f x); auto.
  - destruct (f x), (f y); auto. apply perm_swap.
  - now transitivity (filter f l').
Qed.

(** ** [filepath.Glob] on the pattern of [Filename] *)

Lemma plain_split_slash (s : string) : plain s -> Forall plain (filepath.split_slash s).
Proof.
  unfold plain. induction s as [|c s IH]; simpl; intros H.
  - now repeat constructor.
  - apply orb_false_iff in H as [Hc Hs]. specialize (IH Hs).
    destruct (Ascii.eqb c "/").
    + constructor; [reflexivity | exact IH].
    + destruct (filepath.split_slash s) as [|x xs].
      * repeat constructor. simpl. now rewrite Hc.
      * inversion IH; subst. constructor; [|assumption]. simpl. now rewrite Hc.
Qed.

Lemma plain_clean (stack cs : list string) :
  Forall plain stack -> Forall plain cs -> Forall plain (filepath.clean stack cs).
Proof.
  revert stack. induction cs as [|c cs IH]; intros stack Hs Hc; simpl.
  - now apply Forall_rev.
  - inversion Hc; subst.
    destruct (String.eqb c ""), (String.eqb c "."), (String.eqb c ".."); apply IH; auto.
    all: destruct stack; simpl; auto; now inversion Hs.
Qed.

Lemma plain_root (d : Dir) : plain d -> Forall plain (root d).
Proof.
  intros H. unfold root, filepath.Join. simpl. rewrite app_nil_r.
  apply plain_clean; [constructor | now apply plain_split_slash].
Qed.

Lemma plain_path_string (p : path) : Forall plain p -> plain (filepath.path_string p).
Proof.
  unfold plain, filepath.path_string.
  induction 1 as [|x l Hx Hl IH]; [reflexivity|].
  destruct l as [|y l]; [exact Hx|].
  change (String.concat "/" (x :: y :: l)) with (x +:+ "/" +:+ String.concat "/" (y :: l)).
  rewrite !hasMeta_append, Hx, IH. reflexivity.
Qed.

Lemma concat_snoc (a : string) (l : list string) (x : string) :
  String.concat "/" ((a :: l) ++ [x]) = (String.concat "/" (a :: l) +:+ "/" +:+ x).
Proof.
  revert a. induction l as [|b l IH]; intros a; [reflexivity|].
  change (String.concat "/" ((a :: b :: l) ++ [x]))
    with (a +:+ "/" +:+ String.concat "/" ((b :: l) ++ [x])).
  change (String.concat "/" (a :: b :: l)) with (a +:+ "/" +:+ String.concat "/" (b :: l)).
  rewrite IH. now rewrite !append_assoc.
Qed.

Lemma path_string_snoc (p : path) (c x : string) :
  filepath.path_string ((p ++ [c]) ++ [x]) = (filepath.path_string (p ++ [c]) +:+ "/" +:+ x).
Proof.
  unfold filepath.path_string. destruct (p ++ [c]) as [|a l] eqn:E.
  - now destruct p.
  - apply concat_snoc.
Qed.

Lemma plain_sub (d : Dir) (s : string) : plain d -> plain s -> Forall plain (sub d s).
Proof.
  intros Hd Hs. unfold sub. apply Forall_app. split; [now apply plain_root | now constructor].
Qed.

(** The loop of [glob]: with a plain key, the names that match [key*], in
    the order given. *)
Lemma glob_names_plain (dir : path) (key : string) (names : list string) (acc : list path) :
  plain key ->
  filepath.glob_names dir (key +:+ "*") names acc
  = (acc ++ map (filepath.JoinPath dir) (filter (key_matches key) names), None).
Proof.
  intros Hk. revert acc. induction names as [|n names IH]; intros acc; simpl.
  - now rewrite app_nil_r.
  - rewrite Match_plain_star by exact Hk.
    destruct (key_matches key n); rewrite IH; [|reflexivity].
    now rewrite <- app_assoc.
Qed.

Lemma glob_plain (dir : path) (key : string) (fs : FS) :
  plain key ->
  filepath.glob dir (key +:+ "*") [] fs
  = (map (filepath.JoinPath dir)
         (filter (key_matches key) (filepath.sort_strings (names_at dir fs))), None).
Proof.
  intros Hk. unfold filepath.glob, os.Lstat, names_at, entries_at.
  destruct (lookup dir fs) as [[data|es]|]; try reflexivity.
  now rewrite glob_names_plain.
Qed.

(** With a plain root and a plain key without slash, [Glob] lists one
    directory: [cur]. *)
Lemma Glob_cur (d : Dir) (key : string) (fs : FS) :
  plain d -> plain key -> contains "/" key = false ->
  filepath.Glob (filepath.Join [d; "cur"; key +:+ "*"]) fs
  = Ret (map (filepath.JoinPath (sub d "cur"))
             (filter (key_matches key) (filepath.sort_strings (names_at (sub d "cur") fs))),
         None) fs.
Proof.
  intros Hd Hk Hs. unfold filepath.Glob. f_equal.
  rewrite Join_entry by (apply entry_name_cur || now apply entry_name_pattern).
  rewrite rev_app_distr. cbn [rev app filepath.GlobRev].
  rewrite !rev_involutive.
  assert (Hp : plain (filepath.path_string (sub d "cur"))).
  { apply plain_path_string, plain_sub; [exact Hd | reflexivity]. }
  unfold sub in *. rewrite path_string_snoc.
  rewrite <- !append_assoc.
  assert (Hq : plain ((filepath.path_string (root d ++ ["cur"]) +:+ "/") +:+ key)).
  { unfold plain in *. rewrite !hasMeta_append, Hp, Hk. reflexivity. }
  rewrite Match_plain_star by exact Hq. cbn [snd].
  rewrite hasMeta_append, Hq. cbn [filepath.hasMeta filepath.is_magic orb negb Ascii.eqb].
  simpl. rewrite Hp. simpl.
  now apply glob_plain.
Qed.

(** ** [Filename] on a plain key *)

Lemma key_matches_entry (key n : string) :
  contains "/" n = false -> key_matches key n = has_prefix key n.
Proof.
  intros Hn. unfold key_matches, has_prefix.
  destruct (strip_prefix key n) as [t|] eqn:E; [|reflexivity].
  apply strip_prefix_inv in E. subst n.
  rewrite contains_append in Hn. apply orb_false_iff in Hn as [_ ->]. reflexivity.
Qed.

Lemma filter_key_matches (key : string) (names : list string) :
  Forall entry_name names ->
  filter (key_matches key) names = filter (has_prefix key) names.
Proof.
  intros H. apply filter_ext_in. intros n Hn.
  rewrite Forall_forall in H. apply key_matches_entry, (H n Hn).
Qed.

Lemma Filename_plain (d : Dir) (key : string) (fs : FS) :
  plain d -> plain key -> contains "/" key = false ->
  Filename d key fs =
  if negb (Z.eqb (Z.of_nat (List.length (candidates d key fs))) 1)
  then Ret ([], Some (KeyError key (Z.of_nat (List.length (candidates d key fs))))) fs
  else Ret (hd [] (candidates d key fs), None) fs.
Proof.
  intros Hd Hk Hs. unfold Filename, bind.
  rewrite Glob_cur by assumption. fold (candidates d key fs).
  now destruct (negb (Z.eqb (Z.of_nat (List.length (candidates d key fs))) 1)).
Qed.

Lemma candidates_length (d : Dir) (key : string) (fs : FS) :
  List.length (candidates d key fs)
  = List.length (filter (key_matches key) (names_at (sub d "cur") fs)).
Proof.
  unfold candidates. rewrite length_map.
  apply Permutation_length, filter_perm, sort_strings_perm.
Qed.

Lemma candidates_single (d : Dir) (key n : string) (fs : FS) :
  entry_name n ->
  filter (key_matches key) (names_at (sub d "cur") fs) = [n] ->
  candidates d key fs = [sub d "cur" ++ [n]].
Proof.
  intros Hn H. unfold candidates.
  assert (P : Permutation [n]
                (filter (key_matches key) (filepath.sort_strings (names_at (sub d "cur") fs)))).
  { rewrite <- H. apply filter_perm. symmetry. apply sort_strings_perm. }
  apply Permutation_length_1_inv in P. rewrite P. simpl.
  now rewrite JoinPath_entry.
Qed.

(** C4, as stated, fails: one file in [cur], none of them with the key
    ["["]; [Filename] answers [ErrBadPattern], not [KeyError{"[", 0}]. *)
Lemma Filename_bad_pattern_counterexample :
  let fs := mailbox [] [] [("abc:2,S", File [])] in
  List.length (filter (fun n => String.eqb (before_first ":" n) "[") (names_at (sub "m" "cur") fs)) = 0
  /\ Filename "m" "[" fs = Ret ([], Some ErrBadPattern) fs.
Proof. split; reflexivity. Qed.

(** C4 (amended): for a key without pattern metacharacter and without
    slash, in a mailbox whose root path has no metacharacter either, let N
    be the number of entries of [cur] whose name starts with the key.  If N
    is not one, [Filename] fails with [KeyError{key, N}] and leaves the tree
    as it is; N = 0 and N = 2 are instances. *)
Theorem Filename_KeyError_count (d : Dir) (key : string) (fs : FS) (N : nat) :
  plain d -> plain key -> contains "/" key = false ->
  Forall entry_name (names_at (sub d "cur") fs) ->
  N = List.length (filter (has_prefix key) (names_at (sub d "cur") fs)) ->
  N <> 1 ->
  Filename d key fs = Ret ([], Some (KeyError key (Z.of_nat N))) fs.
Proof.
  intros Hd Hk Hs Hnames HN Hne.
  rewrite Filename_plain by assumption.
  rewrite candidates_length, filter_key_matches, <- HN by assumption.
  destruct (Z.eqb_spec (Z.of_nat N) 1) as [E|E]; [lia | reflexivity].
Qed.

(** Two files that start with [a], and none that starts with [zz]. *)
Lemma Filename_KeyError_count_witness :
  Filename "m" "a" (mailbox [] [] [("a:2,S", File []); ("ab:2,S", File [])])
  = Ret ([], Some (KeyError "a" 2)) (mailbox [] [] [("a:2,S", File []); ("ab:2,S", File [])])
  /\ Filename "m" "zz" (mailbox [] [] [("a:2,S", File [])])
     = Ret ([], Some (KeyError "zz" 0)) (mailbox [] [] [("a:2,S", File [])]).
Proof.
  split.
  - apply (Filename_KeyError_count "m" "a" _ 2); try reflexivity.
    + vm_compute. entry_names.
    + lia.
  - apply (Filename_KeyError_count "m" "zz" _ 0); try reflexivity.
    + vm_compute. entry_names.
    + lia.
Defined.

(** C5, as stated, fails: exactly one file of [cur] has the key [a], and a
    second one has the key [ab]; [Filename "a"] fails with
    [KeyError{a, 2}]. *)
Lemma Filename_prefix_counterexample :
  let fs := mailbox [] [] [("a:2,S", File []); ("ab:2,S", File [])] in
  filter (fun n => String.eqb (before_first ":" n) "a") (names_at (sub "m" "cur") fs) = ["a:2,S"]
  /\ Filename "m" "a" fs = Ret ([], Some (KeyError "a" 2)) fs.
Proof. split; reflexivity. Qed.

(** C5 (amended): for a key without pattern metacharacter and without
    slash, in a mailbox whose root path has no metacharacter, if exactly
    one entry of [cur] has a name that starts with the key, [Filename]
    succeeds and returns the path of that entry. *)
Theorem Filename_unique_prefix (d : Dir) (key n : string) (fs : FS) :
  plain d -> plain key -> contains "/" key = false ->
  Forall entry_name (names_at (sub d "cur") fs) ->
  filter (has_prefix key) (names_at (sub d "cur") fs) = [n] ->
  Filename d key fs = Ret (sub d "cur" ++ [n], None) fs.
Proof.
  intros Hd Hk Hs Hnames Hone.
  rewrite <- filter_key_matches in Hone by assumption.
  assert (Hn : entry_name n).
  { rewrite Forall_forall in Hnames. apply Hnames.
    assert (Hin : In n (filter (key_matches key) (names_at (sub d "cur") fs))).
    { rewrite Hone. now left. }
    now apply filter_In in Hin. }
  rewrite Filename_plain by assumption.
  now rewrite (candidates_single d key n fs Hn Hone).
Qed.

(** Of [a:2,S] and [ab:2,S], one starts with [ab]. *)
Lemma Filename_unique_prefix_witness :
  Filename "m" "ab" (mailbox [] [] [("a:2,S", File []); ("ab:2,S", File [])])
  = Ret (["m"; "cur"; "ab:2,S"], None) (mailbox [] [] [("a:2,S", File []); ("ab:2,S", File [])]).
Proof.
  apply (Filename_unique_prefix "m" "ab" "ab:2,S"); try reflexivity.
  vm_compute. entry_names.
Defined.

(** ** The scan of [Unseen] *)

Lemma Readdirnames_inv (p : path) (names : list string) (fs : FS) :
  os.Readdirnames p fs = Ret (names, None) fs ->
  exists es, entries_at p fs = Some es /\ names = map fst es.
Proof.
  unfold os.Readdirnames, entries_at.
  destruct (lookup p fs) as [[data|es]|]; try discriminate.
  intros H. injection H as <-. now exists es.
Qed.

Lemma Readdirnames_entries (p : path) (es : list (string * node)) (fs : FS) :
  entries_at p fs = Some es -> os.Readdirnames p fs = Ret (map fst es, None) fs.
Proof.
  unfold os.Readdirnames, entries_at.
  destruct (lookup p fs) as [[data|es']|]; try discriminate.
  now intros [= ->].
Qed.

(** Once [new] is listed, [Unseen] is its loop. *)
Lemma Unseen_listed (sep : ascii) (d : Dir) (names : list string) (fs : FS) :
  os.Readdirnames (filepath.Join [d; "new"]) fs = Ret (names, None) fs ->
  Unseen sep d fs =
  match Unseen_loop sep d names [] fs with
  | Ret keys fs' => Ret (keys, None) fs'
  | Panic msg => Panic msg
  end.
Proof.
  intros H. unfold Unseen, bind, os.Open.
  destruct (Readdirnames_inv _ _ _ H) as (es & Hes & _).
  unfold entries_at in Hes.
  destruct (lookup (filepath.Join [d; "new"]) fs) as [x|] eqn:E; [|discriminate].
  rewrite H. reflexivity.
Qed.

Lemma rename_failed (old new : path) (e : error) (fs fs' : FS) :
  os.Rename old new fs = Ret (Some e) fs' -> fs' = fs.
Proof.
  intros H. destruct (Rename_returns old new fs) as (e' & fs1 & H1 & H2).
  rewrite H in H1. injection H1 as <- <-. apply H2. discriminate.
Qed.

(** The keys the loop returns do not depend on what the renames do: every
    visible name gives its key, in order, and the tree is the one the
    renames leave, whether they failed or not. *)
Lemma Unseen_loop_keys (sep : ascii) (d : Dir) (names : list string) :
  Forall (fun n => n <> "") names ->
  Forall (has_key sep) (visible names) ->
  forall (keys : list string) (fs : FS),
    Unseen_loop sep d names keys fs
    = Ret (keys ++ map (key_of sep) (visible names)) (after_renames sep d names fs).
Proof.
  induction names as [|n names IH]; intros Hne Hk keys fs.
  - simpl. now rewrite app_nil_r.
  - inversion Hne as [|? ? Hn Hne']; subst.
    destruct n as [|c s]; [congruence|].
    cbn [Unseen_loop after_renames visible filter hidden byte0] in *.
    unfold bind at 1. unfold ret at 1.
    destruct (Ascii.eqb c ".") eqn:Ec; cbn [negb] in *.
    + now apply IH.
    + inversion Hk as [|? ? Hkn Hk']; subst.
      unfold has_key in Hkn. cbn [map]. unfold key_of at 1.
      destruct (strings.FieldsFunc (String c s) (fun r => Ascii.eqb r sep)) as [|k ks];
        [congruence|].
      cbn [elem0 hd]. unfold bind, ret.
      change (String c s +:+ String sep seen_flags) with (seen_name sep (String c s)).
      destruct (Rename_returns (filepath.Join [d; "new"; String c s])
                  (filepath.Join [d; "cur"; seen_name sep (String c s)]) fs)
        as (e & fs' & Hr & _).
      rewrite Hr, IH by assumption. now rewrite <- app_assoc.
Qed.

Lemma after_renames_app (sep : ascii) (d : Dir) (pre post : list string) (fs : FS) :
  after_renames sep d (pre ++ post) fs = after_renames sep d post (after_renames sep d pre fs).
Proof.
  revert fs. induction pre as [|n pre IH]; intros fs; simpl; [reflexivity|].
  destruct (hidden n); [apply IH|].
  destruct (Rename_returns (filepath.Join [d; "new"; n])
              (filepath.Join [d; "cur"; seen_name sep n]) fs) as (e & fs' & Hr & _).
  rewrite Hr. apply IH.
Qed.

Lemma after_renames_hidden (sep : ascii) (d : Dir) (names : list string) (fs : FS) :
  visible names = [] -> after_renames sep d names fs = fs.
Proof.
  induction names as [|n names IH]; simpl; [reflexivity|].
  unfold visible in *. simpl. destruct (hidden n); simpl; [exact IH | discriminate].
Qed.

(** C1, as stated, fails: the rename of [a] fails (a directory stands at
    its target), and [Unseen] returns the key [a] among the keys, and no
    error; the entry [b] after it is moved. *)
Lemma Unseen_rename_error_counterexample :
  let fs := mailbox [] [("a", File []); ("b", File [])] [("a:2,S", Folder [])] in
  os.Rename (filepath.Join ["m"; "new"; "a"]) (filepath.Join ["m"; "cur"; seen_name ":" "a"]) fs
  = Ret (Some (LinkError "rename" ["m"; "new"; "a"] ["m"; "cur"; "a:2,S"] EEXIST)) fs
  /\ Unseen ":" "m" fs
     = Ret (["a"; "b"], None)
           (mailbox [] [("a", File [])] [("a:2,S", Folder []); ("b:2,S", File [])]).
Proof. split; reflexivity. Qed.

(** C1 (amended): when [new] can be listed (and every visible name has a
    key), [Unseen] returns the key of every visible entry, in enumeration
    order, and a nil error, whatever the renames did.  If the rename of an
    entry fails, its key is returned all the same, the error is dropped,
    the tree is as before that rename, and the scan goes on with the
    entries after it. *)
Theorem Unseen_drops_rename_errors (sep : ascii) (d : Dir) (names : list string) (fs : FS) :
  os.Readdirnames (filepath.Join [d; "new"]) fs = Ret (names, None) fs ->
  Forall (fun n => n <> "") names ->
  Forall (has_key sep) (visible names) ->
  Unseen sep d fs = Ret (map (key_of sep) (visible names), None) (after_renames sep d names fs)
  /\ forall pre n post e fs1,
       names = pre ++ n :: post -> hidden n = false ->
       os.Rename (filepath.Join [d; "new"; n]) (filepath.Join [d; "cur"; seen_name sep n])
                 (after_renames sep d pre fs) = Ret (Some e) fs1 ->
       In (key_of sep n) (map (key_of sep) (visible names))
       /\ after_renames sep d names fs = after_renames sep d post (after_renames sep d pre fs).
Proof.
  intros Hl Hne Hk. split.
  - rewrite (Unseen_listed sep d names fs Hl).
    now rewrite Unseen_loop_keys by assumption.
  - intros pre n post e fs1 -> Hn Hr. split.
    + apply in_map. unfold visible. apply filter_In. split.
      * apply in_elt.
      * now rewrite Hn.
    + rewrite after_renames_app. simpl. rewrite Hn, Hr.
      now rewrite (rename_failed _ _ _ _ _ Hr).
Qed.

(** The mailbox of the counterexample: the rename of [a] fails. *)
Lemma Unseen_drops_rename_errors_witness :
  Unseen ":" "m" (mailbox [] [("a", File []); ("b", File [])] [("a:2,S", Folder [])])
  = Ret (map (key_of ":") (visible ["a"; "b"]), None)
        (after_renames ":" "m" ["a"; "b"]
           (mailbox [] [("a", File []); ("b", File [])] [("a:2,S", Folder [])])).
Proof.
  refine (proj1 (Unseen_drops_rename_errors ":" "m" ["a"; "b"] _ _ _ _)).
  - reflexivity.
  - repeat constructor; discriminate.
  - repeat constructor; discriminate.
Defined.

(** ** The scan when every rename succeeds *)

Section Scan.

Variables (sep : ascii) (d : Dir).
Hypothesis Hsep : sep <> "/"%char.

Lemma new_is_not_cur : "new" <> "cur".
Proof. discriminate. Qed.

(** One successful rename of the scan, on the entries of [new] and of
    [cur]. *)
Lemma seen_rename_ok (n : string) (fs fs' : FS) :
  entry_name n ->
  os.Rename (filepath.Join [d; "new"; n]) (filepath.Join [d; "cur"; seen_name sep n]) fs
  = Ret None fs' ->
  exists x nes ces,
    entries_at (sub d "new") fs = Some nes /\ find_entry n nes = Some x /\
    entries_at (sub d "cur") fs = Some ces /\
    entries_at (sub d "new") fs' = Some (remove_entry n nes) /\
    entries_at (sub d "cur") fs' = Some (set_entry (seen_name sep n) x ces).
Proof.
  intros Hn.
  rewrite (Join_entry d "new" n entry_name_new Hn).
  rewrite (Join_entry d "cur" _ entry_name_cur (entry_name_seen sep n Hsep Hn)).
  unfold sub. intros H.
  apply (Rename_ok_inv (root d) "new" "cur" new_is_not_cur) in H
    as (x & nes & ces & H1 & H2 & H3 & ->).
  exists x, nes, ces. repeat split; auto.
  - rewrite (moved_source (root d) "new" "cur" new_is_not_cur). now rewrite H1.
  - rewrite (moved_target (root d) "new" "cur" new_is_not_cur). now rewrite H3.
Qed.

Lemma lookup_new (n : string) (fs : FS) :
  lookup ((sub d "new") ++ [n]) fs
  = match entries_at (sub d "new") fs with Some es => find_entry n es | None => None end.
Proof. apply lookup_snoc. Qed.

Lemma lookup_cur (n : string) (fs : FS) :
  lookup ((sub d "cur") ++ [n]) fs
  = match entries_at (sub d "cur") fs with Some es => find_entry n es | None => None end.
Proof. apply lookup_snoc. Qed.

Lemma filter_listed_cons (n : string) (vis l : list string) :
  filter (fun x => negb (listed vis x)) (filter (fun y => negb (String.eqb y n)) l)
  = filter (fun x => negb (listed (n :: vis) x)) l.
Proof.
  induction l as [|y l IH]; [reflexivity|].
  cbn [filter]. change (listed (n :: vis) y) with (String.eqb y n || listed vis y).
  destruct (String.eqb y n); cbn [negb orb filter]; [exact IH|].
  destruct (listed vis y); cbn [negb]; [exact IH | now rewrite IH].
Qed.

(** What the scan leaves in [new]: the entries it did not move. *)
Lemma new_after (names : list string) :
  Forall entry_name names ->
  forall (fs : FS) (nes : list (string * node)),
    entries_at (sub d "new") fs = Some nes ->
    renames_succeed sep d names fs ->
    exists nes',
      entries_at (sub d "new") (after_renames sep d names fs) = Some nes'
      /\ map fst nes' = filter (fun x => negb (listed (visible names) x)) (map fst nes).
Proof.
  induction names as [|n names IH]; intros Hnames fs nes Hnes Hok.
  - exists nes. split; [exact Hnes|]. simpl.
    induction (map fst nes) as [|x l IHl]; simpl; congruence.
  - inversion Hnames as [|? ? Hn Hnames']; subst.
    cbn [renames_succeed after_renames visible filter] in *.
    destruct (hidden n); cbn [negb].
    + now apply IH.
    + destruct Hok as (fs1 & Hr & Hok). rewrite Hr.
      destruct (seen_rename_ok n fs fs1 Hn Hr) as (x & nes0 & ces & H1 & H2 & H3 & H4 & H5).
      rewrite Hnes in H1. injection H1 as <-.
      destruct (IH Hnames' fs1 _ H4 Hok) as (nes' & Hn1 & Hn2).
      exists nes'. split; [exact Hn1|].
      rewrite Hn2, names_remove_entry. apply filter_listed_cons.
Qed.

Lemma listed_In (l : list string) (x : string) : listed l x = true <-> In x l.
Proof.
  unfold listed. rewrite existsb_exists. split.
  - intros (y & Hy & E). apply String.eqb_eq in E. now subst.
  - intros H. exists x. split; [exact H | apply String.eqb_refl].
Qed.

Lemma visible_none (l : list string) : (forall x, In x l -> hidden x = true) -> visible l = [].
Proof.
  induction l as [|x l IH]; intros H; simpl; [reflexivity|].
  rewrite (H x) by now left. simpl. apply IH. intros y Hy. apply H. now right.
Qed.

(** The source of a rename that succeeds is there before the scan. *)
Lemma sources_present (names : list string) :
  Forall entry_name names ->
  forall (fs : FS),
    renames_succeed sep d names fs ->
    forall n, In n (visible names) -> lookup ((sub d "new") ++ [n]) fs <> None.
Proof.
  induction names as [|m names IH]; intros Hnames fs Hok n Hin; [contradiction|].
  inversion Hnames as [|? ? Hm Hnames']; subst.
  cbn [renames_succeed visible filter] in *.
  destruct (hidden m); cbn [negb] in *.
  - now apply (IH Hnames' fs Hok).
  - destruct Hok as (fs1 & Hr & Hok).
    destruct (seen_rename_ok m fs fs1 Hm Hr) as (x & nes & ces & H1 & H2 & H3 & H4 & H5).
    rewrite lookup_new, H1.
    destruct Hin as [->|Hin]; [congruence|].
    specialize (IH Hnames' fs1 Hok n Hin). rewrite lookup_new, H4 in IH.
    destruct (String.eqb_spec m n) as [->|Hmn]; [congruence|].
    now rewrite find_entry_remove_other in IH.
Qed.

(** The scan writes in [cur] only the names it gives. *)
Lemma cur_frame (names : list string) :
  Forall entry_name names ->
  forall (fs : FS) (q : string),
    renames_succeed sep d names fs ->
    (forall n, In n (visible names) -> seen_name sep n <> q) ->
    lookup ((sub d "cur") ++ [q]) (after_renames sep d names fs) = lookup ((sub d "cur") ++ [q]) fs.
Proof.
  induction names as [|m names IH]; intros Hnames fs q Hok Hq; [reflexivity|].
  inversion Hnames as [|? ? Hm Hnames']; subst.
  cbn [renames_succeed after_renames visible filter] in *.
  destruct (hidden m); cbn [negb] in *.
  - now apply IH.
  - destruct Hok as (fs1 & Hr & Hok). rewrite Hr.
    destruct (seen_rename_ok m fs fs1 Hm Hr) as (x & nes & ces & H1 & H2 & H3 & H4 & H5).
    rewrite IH; auto.
    + rewrite !lookup_cur, H3, H5. apply find_entry_set_other. apply Hq. now left.
    + intros n Hn. apply Hq. now right.
Qed.

(** An entry that is gone from [new] stays away. *)
Lemma new_stays_away (names : list string) :
  Forall entry_name names ->
  forall (fs : FS) (n : string),
    renames_succeed sep d names fs ->
    lookup ((sub d "new") ++ [n]) fs = None ->
    lookup ((sub d "new") ++ [n]) (after_renames sep d names fs) = None.
Proof.
  induction names as [|m names IH]; intros Hnames fs n Hok Hnone; [exact Hnone|].
  inversion Hnames as [|? ? Hm Hnames']; subst.
  cbn [renames_succeed after_renames] in *.
  destruct (hidden m).
  - now apply IH.
  - destruct Hok as (fs1 & Hr & Hok). rewrite Hr.
    destruct (seen_rename_ok m fs fs1 Hm Hr) as (x & nes & ces & H1 & H2 & H3 & H4 & H5).
    apply IH; auto. rewrite lookup_new, H1 in Hnone. rewrite lookup_new, H4.
    destruct (String.eqb_spec m n) as [->|Hmn].
    + apply find_entry_remove_same.
    + now rewrite find_entry_remove_other.
Qed.

(** Every visible entry of [new] ends in [cur] under its full name
    followed by the separator and the flags. *)
Lemma scan_moves (names : list string) :
  Forall entry_name names ->
  forall (fs : FS),
    renames_succeed sep d names fs ->
    forall n x,
      In n (visible names) ->
      lookup ((sub d "new") ++ [n]) fs = Some x ->
      lookup ((sub d "cur") ++ [seen_name sep n]) (after_renames sep d names fs) = Some x
      /\ lookup ((sub d "new") ++ [n]) (after_renames sep d names fs) = None.
Proof.
  induction names as [|m names IH]; intros Hnames fs Hok n x Hin Hx; [contradiction|].
  inversion Hnames as [|? ? Hm Hnames']; subst.
  pose proof (sources_present names Hnames') as Hsrc.
  cbn [renames_succeed after_renames visible filter] in *.
  destruct (hidden m); cbn [negb] in *.
  - now apply IH.
  - destruct Hok as (fs1 & Hr & Hok). rewrite Hr.
    destruct (seen_rename_ok m fs fs1 Hm Hr) as (y & nes & ces & H1 & H2 & H3 & H4 & H5).
    rewrite lookup_new, H1 in Hx.
    destruct (String.eqb_spec m n) as [->|Hmn].
    + assert (Hgone : lookup ((sub d "new") ++ [n]) fs1 = None).
      { rewrite lookup_new, H4. apply find_entry_remove_same. }
      split.
      * rewrite cur_frame; auto.
        -- rewrite lookup_cur, H5, find_entry_set_same. congruence.
        -- intros r Hr' E. apply seen_name_inj in E. subst r.
           now apply (Hsrc fs1 Hok n Hr').
      * now apply new_stays_away.
    + destruct Hin as [E|Hin]; [contradiction|].
      apply IH; auto.
      rewrite lookup_new, H4. now rewrite find_entry_remove_other.
Qed.

End Scan.

(** ** [Unseen] when every rename succeeds *)

Lemma entry_names_nonempty (names : list string) :
  Forall entry_name names -> Forall (fun n => n <> "") names.
Proof. apply Forall_impl. now intros n [H _]. Qed.

Lemma before_first_no_sep (c : ascii) (s : string) : contains c (before_first c s) = false.
Proof.
  induction s as [|a s IH]; simpl; [reflexivity|].
  destruct (Ascii.eqb a c) eqn:E; simpl; [reflexivity|]. now rewrite E.
Qed.

(** A key holds no separator. *)
Lemma key_of_no_sep (sep : ascii) (n : string) : contains sep (key_of sep n) = false.
Proof.
  induction n as [|a s IH]; [reflexivity|].
  destruct (Ascii.eqb a sep) eqn:E.
  - unfold key_of, strings.FieldsFunc in *. simpl. rewrite E. exact IH.
  - rewrite key_of_before_first by exact E. apply before_first_no_sep.
Qed.

(** C2: when [new] lists K visible entries and every rename of the scan
    succeeds, [Unseen] returns K keys, the key of each visible entry in
    enumeration order, and leaves [new] without visible entry: called
    again at once, it returns no key.  The names are names a directory
    can hold, each visible one has a key, and the separator is not the
    slash. *)
Theorem Unseen_moves_every_entry (sep : ascii) (d : Dir) (names : list string) (fs : FS) :
  sep <> "/"%char ->
  os.Readdirnames (filepath.Join [d; "new"]) fs = Ret (names, None) fs ->
  Forall entry_name names ->
  Forall (has_key sep) (visible names) ->
  renames_succeed sep d names fs ->
  exists fs' names',
    Unseen sep d fs = Ret (map (key_of sep) (visible names), None) fs'
    /\ List.length (map (key_of sep) (visible names)) = List.length (visible names)
    /\ os.Readdirnames (filepath.Join [d; "new"]) fs' = Ret (names', None) fs'
    /\ visible names' = []
    /\ Unseen sep d fs' = Ret ([], None) fs'.
Proof.
  intros Hsep Hl Hnames Hkeys Hok.
  destruct (Readdirnames_inv _ _ _ Hl) as (nes & Hnes & ->).
  rewrite (Join_sub d "new" entry_name_new) in *.
  destruct (new_after sep d Hsep (map fst nes) Hnames fs nes Hnes Hok) as (nes' & Hn1 & Hn2).
  set (fs' := after_renames sep d (map fst nes) fs) in *.
  assert (Hhid : forall x, In x (map fst nes') -> hidden x = true).
  { intros x Hx. rewrite Hn2 in Hx. apply filter_In in Hx as [Hx Hnl].
    destruct (hidden x) eqn:E; [reflexivity|]. exfalso.
    assert (Hv : In x (visible (map fst nes))).
    { apply filter_In. split; [exact Hx | now rewrite E]. }
    apply listed_In in Hv. now rewrite Hv in Hnl. }
  assert (Hl' : os.Readdirnames (sub d "new") fs' = Ret (map fst nes', None) fs')
    by now apply Readdirnames_entries.
  exists fs', (map fst nes'). repeat split.
  - rewrite (Unseen_listed sep d (map fst nes) fs)
      by now rewrite (Join_sub d "new" entry_name_new).
    rewrite Unseen_loop_keys; auto using entry_names_nonempty.
  - apply length_map.
  - exact Hl'.
  - now apply visible_none.
  - rewrite (Unseen_listed sep d (map fst nes') fs')
      by now rewrite (Join_sub d "new" entry_name_new).
    rewrite Unseen_loop_keys.
    + rewrite (visible_none _ Hhid). simpl.
      now rewrite after_renames_hidden by now apply visible_none.
    + apply entry_names_nonempty. rewrite Forall_forall in *.
      intros x Hx. apply Hnames. rewrite Hn2 in Hx. now apply filter_In in Hx.
    + rewrite (visible_none _ Hhid). constructor.
Qed.

(** Two messages and a dot file in [new], an empty [cur]. *)
Lemma Unseen_moves_every_entry_witness :
  exists fs' names',
    Unseen ":" "m" (mailbox [] [("a", File []); (".h", File []); ("b", File [])] [])
    = Ret (map (key_of ":") (visible ["a"; ".h"; "b"]), None) fs'
    /\ List.length (map (key_of ":") (visible ["a"; ".h"; "b"]))
       = List.length (visible ["a"; ".h"; "b"])
    /\ os.Readdirnames (filepath.Join ["m"; "new"]) fs' = Ret (names', None) fs'
    /\ visible names' = []
    /\ Unseen ":" "m" fs' = Ret ([], None) fs'.
Proof.
  apply (Unseen_moves_every_entry ":" "m" ["a"; ".h"; "b"]).
  - discriminate.
  - reflexivity.
  - entry_names.
  - repeat constructor; discriminate.
  - renames_done.
Defined.

(** C6, as stated, fails: the entry [abc:x] of [new] has the key [abc],
    and [Unseen] renames it to [abc:x:2,S], not to [abc:2,S]. *)
Lemma Unseen_target_counterexample :
  let fs := mailbox [] [("abc:x", File [])] [] in
  before_first ":" "abc:x" = "abc"
  /\ Unseen ":" "m" fs = Ret (["abc"], None) (mailbox [] [] [("abc:x:2,S", File [])]).
Proof. split; reflexivity. Qed.

(** ** [Keys] and the separator *)

(** C3: [Keys] splits at the colon, whatever [Separator] is.  With the
    separator [;], [Unseen] writes [abc;2,S] for the key [abc], and [Keys]
    returns the whole name [abc;2,S] as the key, where the part before the
    separator is [abc]. *)
Theorem Keys_ignores_Separator :
  let fs := mailbox [] [] [("abc;2,S", File [])] in
  Unseen ";" "m" (mailbox [] [("abc", File [])] []) = Ret (["abc"], None) fs
  /\ Keys "m" fs = Ret (["abc;2,S"], None) fs
  /\ before_first ";" "abc;2,S" = "abc".
Proof. repeat split. Qed.

(** C9: a visible name made of separators has no field, and taking the
    first field panics: in [Unseen] for an entry [:] of [new], in [Keys]
    for an entry [:] of [cur].  The part before the first separator of
    that name is the empty string. *)
Theorem separator_name_panics :
  Unseen ":" "m" (mailbox [] [(":", File [])] []) = Panic index_out_of_range
  /\ Keys "m" (mailbox [] [] [(":", File [])]) = Panic index_out_of_range
  /\ before_first ":" ":" = "".
Proof. repeat split. Qed.

(** ** What the readers touch *)


Lemma Keys_loop_reads (names keys : list string) (fs : FS) :
  forall r fs', Keys_loop names keys fs = Ret r fs' -> fs' = fs.
Proof.
  revert keys. induction names as [|n names IH]; intros keys r fs'; simpl.
  - now intros [= _ <-].
  - destruct n as [|c s]; [discriminate|]. unfold bind. simpl.
    destruct (negb (Ascii.eqb c ".")); [|apply IH].
    destruct (strings.FieldsFunc _ _); [discriminate|]. simpl. apply IH.
Qed.

(** [Keys] leaves the tree as it is. *)
Lemma Keys_reads (d : Dir) (fs : FS) :
  forall r fs', Keys d fs = Ret r fs' -> fs' = fs.
Proof.
  intros r fs'. unfold Keys, bind, os.Open, os.Readdirnames, ret.
  destruct (lookup (filepath.Join [d; "cur/"]) fs) as [[data|es]|] eqn:El;
    cbv beta iota; rewrite ?El.
  - now intros [= _ <-].
  - destruct (Keys_loop (map fst es) [] fs) as [keys fs1|msg] eqn:E; [|discriminate].
    apply Keys_loop_reads in E. now intros [= _ <-].
  - now intros [= _ <-].
Qed.

(** The loop of [Keys]: the first field between colons of every visible
    name. *)
Lemma Keys_loop_keys (names : list string) :
  Forall (fun n => n <> "") names ->
  Forall (has_key ":") (visible names) ->
  forall (keys : list string) (fs : FS),
    Keys_loop names keys fs = Ret (keys ++ map (key_of ":") (visible names)) fs.
Proof.
  induction names as [|n names IH]; intros Hne Hk keys fs.
  - simpl. now rewrite app_nil_r.
  - inversion Hne as [|? ? Hn Hne']; subst.
    destruct n as [|c s]; [congruence|].
    cbn [Keys_loop visible filter hidden byte0] in *.
    unfold bind at 1. unfold ret at 1.
    destruct (Ascii.eqb c ".") eqn:Ec; cbn [negb] in *.
    + now apply IH.
    + inversion Hk as [|? ? Hkn Hk']; subst.
      unfold has_key in Hkn. cbn [map]. unfold key_of at 1.
      destruct (strings.FieldsFunc (String c s) (fun r => Ascii.eqb r ":")) as [|k ks];
        [congruence|].
      cbn [elem0 hd]. unfold bind, ret.
      rewrite IH by assumption. now rewrite <- app_assoc.
Qed.

(** X12: [Keys] returns, for the visible entries of [cur] in listing
    order, the part of each name before its first colon, and leaves the
    tree as it is, when no name starts with a colon (dot files are passed
    over). *)
Lemma Keys_colon (d : Dir) (es : list (string * node)) (fs : FS) :
  entries_at (sub d "cur") fs = Some es ->
  Forall (fun n => n <> "" /\ has_prefix ":" n = false) (map fst es) ->
  Keys d fs = Ret (map (before_first ":") (visible (map fst es)), None) fs.
Proof.
  intros Hes Hnames. unfold Keys, bind, ret, os.Open.
  rewrite Join_cur_slash, (entries_lookup _ _ _ Hes), (Readdirnames_entries _ _ _ Hes).
  assert (Hcolon : forall n, n <> "" /\ has_prefix ":" n = false ->
                             has_key ":" n /\ key_of ":" n = before_first ":" n).
  { intros [|a s] [Hn Hp]; [congruence|].
    assert (Ha : Ascii.eqb a ":" = false).
    { destruct (Ascii.eqb_spec a ":") as [->|]; [discriminate Hp | reflexivity]. }
    split; [now apply has_key_first | now apply key_of_before_first]. }
  rewrite Keys_loop_keys.
  - simpl. do 2 f_equal. apply map_ext_in. intros n Hn.
    apply filter_In in Hn as [Hn _]. rewrite Forall_forall in Hnames.
    now apply Hcolon, Hnames.
  - revert Hnames. apply Forall_impl. now intros n [H _].
  - rewrite Forall_forall in *. intros n Hn. apply filter_In in Hn as [Hn _].
    now apply Hcolon, Hnames.
Qed.

Lemma Keys_colon_witness :
  Keys "m" (mailbox [] [] [("a:2,S", File []); (".x", File []); ("b.c:2,RS", File [])])
  = Ret (map (before_first ":")
             (visible (map fst [("a:2,S", File []); (".x", File []); ("b.c:2,RS", File [])])),
         None)
        (mailbox [] [] [("a:2,S", File []); (".x", File []); ("b.c:2,RS", File [])]).
Proof.
  apply (Keys_colon "m" [("a:2,S", File []); (".x", File []); ("b.c:2,RS", File [])]).
  - reflexivity.
  - repeat constructor; discriminate.
Defined.

(** [Filename] with a plain key reads the names of [cur] and nothing
    else: two trees with the same listing of [cur] give the same answer. *)
Lemma Filename_reads_cur (d : Dir) (key : string) (fs fs' : FS) :
  plain d -> plain key -> contains "/" key = false ->
  names_at (sub d "cur") fs = names_at (sub d "cur") fs' ->
  forall r, Filename d key fs = Ret r fs -> Filename d key fs' = Ret r fs'.
Proof.
  intros Hd Hk Hs Hsame r. rewrite !Filename_plain by assumption.
  unfold candidates. rewrite Hsame.
  destruct (negb _); now intros [= <-].
Qed.

Section Readers.

Variables (MIMEHeader Message_t : Type).
Variable ReadMIMEHeader : list byte -> MIMEHeader * option error.
Variable ReadMessage : list byte -> option Message_t * option error.
Variable zero_message : Message_t.




End Readers.

(** The failures of C8 at work: a key that matches nothing, and a parser
    that refuses the file. *)
Example Header_KeyError_example :
  Header unit (fun _ => (tt, None)) "m" "b" (mailbox [] [] [("a:2,S", File [])])
  = Ret (None, Some (KeyError "b" 0)) (mailbox [] [] [("a:2,S", File [])]).
Proof. reflexivity. Qed.

Example Message_parse_error_example :
  Message unit (fun _ => (None, Some (OtherError "malformed header line"))) tt
          "m" "a" (mailbox [] [] [("a:2,S", File [x00])])
  = Ret (None, Some (OtherError "malformed header line"))
        (mailbox [] [] [("a:2,S", File [x00])]).
Proof. reflexivity. Qed.

(** C10: [Filename] joins the key to the path of [cur] and cleans the
    result, so that a key that climbs out of [cur] names an entry of [new]
    or of [tmp]: the one message of [new] is found, and [Header] reads its
    bytes; with [new] empty and the same [cur], the key matches nothing. *)
Theorem Filename_reaches_new :
  let fs := mailbox [("t", File [x02])] [("a", File [x01])] [] in
  filepath.Join ["m"; "cur"; "../new/a" +:+ "*"] = ["m"; "new"; "a*"]
  /\ Filename "m" "../new/a" fs = Ret (["m"; "new"; "a"], None) fs
  /\ Filename "m" "../tmp/t" fs = Ret (["m"; "tmp"; "t"], None) fs
  /\ Header (list byte) (fun data => (data, None)) "m" "../new/a" fs = Ret (Some [x01], None) fs
  /\ Filename "m" "../new/a" (mailbox [] [] [])
     = Ret ([], Some (KeyError "../new/a" 0)) (mailbox [] [] []).
Proof. repeat split. Qed.

(** ** Delivery, then [Unseen], then [Filename] *)

Lemma has_prefix_refl (k : string) : has_prefix k k = true.
Proof. rewrite <- (append_nil_r k) at 2. apply has_prefix_append. Qed.

Lemma key_matches_prefix (k n : string) : has_prefix k n = false -> key_matches k n = false.
Proof. unfold has_prefix, key_matches. now destruct (strip_prefix k n). Qed.

Lemma visible_app (l l' : list string) : visible (l ++ l') = visible l ++ visible l'.
Proof. apply filter_app. Qed.

Section RoundTrip.

Variables (sep : ascii) (d : Dir) (k : string) (P : list byte).

Hypothesis Hsep : sep <> "/"%char.
Hypothesis Hd : plain d.
Hypothesis Hk_name : entry_name k.
Hypothesis Hk_plain : plain k.
Hypothesis Hk_sep : contains sep k = false.
Hypothesis Hk_visible : hidden k = false.

Lemma tmp_is_not_new : "tmp" <> "new".
Proof. discriminate. Qed.

Lemma tmp_is_not_cur : "tmp" <> "cur".
Proof. discriminate. Qed.

(** The three steps of a delivery put the payload in [new] under the key,
    at the end of the listing, and leave [cur] alone. *)
Lemma makeDelivery_ok (fs : FS) (tes nes ces : list (string * node)) :
  entries_at (sub d "tmp") fs = Some tes ->
  entries_at (sub d "new") fs = Some nes ->
  entries_at (sub d "cur") fs = Some ces ->
  find_entry k tes = None ->
  find_entry k nes = None ->
  exists fs1,
    makeDelivery d k (string_of_list_byte P) fs = Ret None fs1
    /\ entries_at (sub d "new") fs1 = Some (nes ++ [(k, File P)])
    /\ entries_at (sub d "cur") fs1 = Some ces.
Proof.
  intros Ht Hn Hc Hkt Hkn.
  (* Begin *)
  set (fs_a := alter (set_entry k (File [])) (sub d "tmp") fs).
  assert (HB : os.CreateExcl ((sub d "tmp") ++ [k]) fs = Ret ((sub d "tmp") ++ [k], None) fs_a).
  { unfold os.CreateExcl. rewrite lookup_snoc, Ht, Hkt, split_last_snoc.
    now rewrite (entries_lookup _ _ _ Ht). }
  assert (Ht_a : entries_at (sub d "tmp") fs_a = Some (set_entry k (File []) tes)).
  { unfold fs_a. now rewrite entries_at_alter_same, Ht. }
  (* Write *)
  set (fs_b := alter (set_entry k (File P)) (sub d "tmp") fs_a).
  assert (HW : os.Write ((sub d "tmp") ++ [k]) P fs_a = Ret None fs_b).
  { unfold os.Write. now rewrite split_last_snoc, lookup_snoc, Ht_a, find_entry_set_same. }
  assert (Ht_b : entries_at (sub d "tmp") fs_b
                 = Some (set_entry k (File P) (set_entry k (File []) tes))).
  { unfold fs_b. now rewrite entries_at_alter_same, Ht_a. }
  assert (Hn_b : entries_at (sub d "new") fs_b = Some nes).
  { unfold fs_b, fs_a, sub.
    now rewrite !(entries_at_alter_other _ (root d) "tmp" "new") by discriminate. }
  assert (Hc_b : entries_at (sub d "cur") fs_b = Some ces).
  { unfold fs_b, fs_a, sub.
    now rewrite !(entries_at_alter_other _ (root d) "tmp" "cur") by discriminate. }
  (* Close *)
  pose proof (Rename_file_ok (root d) "tmp" "new" tmp_is_not_new k k fs_b _ nes P
                Ht_b (find_entry_set_same _ _ _) Hn_b Hkn) as HC.
  fold (sub d "tmp") (sub d "new") in HC.
  eexists. split; [|split].
  - unfold makeDelivery, NewDelivery, Write, Close, bind, ret.
    rewrite (Join_entry d "tmp" k entry_name_tmp Hk_name). fold (sub d "tmp").
    rewrite HB. cbn [file dir key].
    rewrite list_byte_of_string_of_list_byte, HW.
    rewrite (Join_entry d "tmp" k entry_name_tmp Hk_name).
    rewrite (Join_entry d "new" k entry_name_new Hk_name).
    exact HC.
  - unfold sub.
    rewrite (moved_target (root d) "tmp" "new" tmp_is_not_new).
    fold (sub d "new"). fold (sub d "new"). rewrite Hn_b. simpl.
    now rewrite set_entry_absent.
  - unfold sub.
    rewrite (moved_elsewhere (root d) "tmp" "new") by discriminate. exact Hc_b.
Qed.

(** Whatever the renames of the other entries do, the delivered message
    waits in [new], and no name of [cur] starts with its key. *)
Lemma scan_keeps (x : node) (names : list string) :
  Forall entry_name names ->
  (forall n, In n names -> has_prefix k n = false) ->
  forall (fs : FS) (nes ces : list (string * node)),
    entries_at (sub d "new") fs = Some nes ->
    entries_at (sub d "cur") fs = Some ces ->
    find_entry k nes = Some x ->
    (forall n, In n (map fst ces) -> has_prefix k n = false) ->
    exists nes' ces',
      entries_at (sub d "new") (after_renames sep d names fs) = Some nes'
      /\ entries_at (sub d "cur") (after_renames sep d names fs) = Some ces'
      /\ find_entry k nes' = Some x
      /\ (forall n, In n (map fst ces') -> has_prefix k n = false).
Proof.
  induction names as [|n names IH]; intros Hnames Hfresh fs nes ces Hn Hc Hx Hcur.
  - now exists nes, ces.
  - inversion Hnames as [|? ? Hn_name Hnames']; subst.
    assert (Hfresh' : forall m, In m names -> has_prefix k m = false)
      by (intros m Hm; apply Hfresh; now right).
    assert (Hkn : has_prefix k n = false) by (apply Hfresh; now left).
    cbn [after_renames]. destruct (hidden n); [now apply (IH Hnames' Hfresh' fs nes ces)|].
    destruct (Rename_returns (filepath.Join [d; "new"; n])
                (filepath.Join [d; "cur"; seen_name sep n]) fs) as ([e|] & fs' & Hr & Hsame).
    + rewrite Hr. rewrite (rename_failed _ _ _ _ _ Hr).
      now apply (IH Hnames' Hfresh' fs nes ces).
    + rewrite Hr.
      destruct (seen_rename_ok sep d Hsep n fs fs' Hn_name Hr)
        as (y & nes0 & ces0 & H1 & H2 & H3 & H4 & H5).
      rewrite Hn in H1. injection H1 as <-. rewrite Hc in H3. injection H3 as <-.
      apply (IH Hnames' Hfresh' fs' _ _ H4 H5).
      * rewrite find_entry_remove_other; [exact Hx|].
        intros ->. now rewrite has_prefix_refl in Hkn.
      * intros m Hm. apply names_set_entry in Hm as [->|Hm]; [|now apply Hcur].
        destruct (has_prefix k (seen_name sep n)) eqn:E; [|reflexivity].
        unfold seen_name in E. apply has_prefix_before_sep in E; [congruence | exact Hk_sep].
Qed.

End RoundTrip.

Lemma find_entry_app_absent (c : string) (es es' : list (string * node)) :
  find_entry c es = None -> find_entry c (es ++ es') = find_entry c es'.
Proof.
  induction es as [|[a y] es IH]; simpl; [reflexivity|].
  destruct (String.eqb a c); [discriminate | exact IH].
Qed.

Lemma fresh_absent (k : string) (es : list (string * node)) :
  (forall n, In n (map fst es) -> has_prefix k n = false) -> find_entry k es = None.
Proof.
  intros H. apply find_entry_none. intros Hin.
  specialize (H k Hin). now rewrite has_prefix_refl in H.
Qed.

Lemma filter_none {A} (f : A -> bool) (l : list A) :
  (forall x, In x l -> f x = false) -> filter f l = [].
Proof.
  induction l as [|x l IH]; intros H; simpl; [reflexivity|].
  rewrite (H x) by now left. apply IH. intros y Hy. apply H. now right.
Qed.

Lemma key_matches_seen (sep : ascii) (k : string) :
  sep <> "/"%char -> key_matches k (seen_name sep k) = true.
Proof.
  intros Hsep. unfold key_matches, seen_name. rewrite strip_prefix_append. simpl.
  now destruct (Ascii.eqb_spec sep "/").
Qed.

(** C7, as stated, fails: a delivery under the key [a] into a mailbox
    whose [cur] holds the message of key [ab] succeeds, [Unseen] moves the
    message and returns its key, and [Filename] on that key finds two
    files and returns a [KeyError]: nothing is read back. *)
Lemma delivery_round_trip_counterexample :
  let fs := mailbox [] [] [("ab:2,S", File [x00])] in
  let fs1 := mailbox [] [("a", File [x68; x69])] [("ab:2,S", File [x00])] in
  let fs2 := mailbox [] [] [("ab:2,S", File [x00]); ("a:2,S", File [x68; x69])] in
  makeDelivery "m" "a" (string_of_list_byte [x68; x69]) fs = Ret None fs1
  /\ Unseen ":" "m" fs1 = Ret (["a"], None) fs2
  /\ Filename "m" "a" fs2 = Ret ([], Some (KeyError "a" 2)) fs2.
Proof. repeat split; reflexivity. Qed.

(** C7 (amended): for every payload P: a delivery of P (the staged file
    in [tmp], the write, the rename into [new]), then [Unseen], then
    [Filename] on the key of the delivery, then reading the file, gives P,
    when the key is no prefix of another name.  The mailbox has its three
    directories and a root path without metacharacter; the names of [new]
    are names a directory can hold and the visible ones have a key; the
    separator is not the slash; the key is a name a directory can hold,
    visible, without metacharacter and without separator, and fresh: no
    entry of [tmp] has it as name and no entry of [new] or [cur] a name
    that starts with it. *)
Theorem delivery_round_trip
    (sep : ascii) (d : Dir) (k : string) (P : list byte) (fs : FS)
    (tes nes ces : list (string * node)) :
  sep <> "/"%char ->
  plain d ->
  entry_name k -> plain k -> contains sep k = false -> hidden k = false ->
  entries_at (sub d "tmp") fs = Some tes ->
  entries_at (sub d "new") fs = Some nes ->
  entries_at (sub d "cur") fs = Some ces ->
  Forall entry_name (map fst nes) ->
  Forall (has_key sep) (visible (map fst nes)) ->
  find_entry k tes = None ->
  (forall n, In n (map fst nes) -> has_prefix k n = false) ->
  (forall n, In n (map fst ces) -> has_prefix k n = false) ->
  exists fs1 keys fs2 p,
    makeDelivery d k (string_of_list_byte P) fs = Ret None fs1
    /\ Unseen sep d fs1 = Ret (keys, None) fs2
    /\ In k keys
    /\ Filename d k fs2 = Ret (p, None) fs2
    /\ os.ReadAll p fs2 = Ret (P, None) fs2
    /\ cat p fs2 = Ret (string_of_list_byte P, None) fs2.
Proof.
  intros Hsep Hd Hk_name Hk_plain Hk_sep Hk_vis Ht Hn Hc Hnames Hkeys Hkt Hfn Hfc.
  destruct (makeDelivery_ok d k P Hk_name fs tes nes ces Ht Hn Hc Hkt (fresh_absent k nes Hfn))
    as (fs1 & Hm & Hn1 & Hc1).
  destruct (key_of_no_separator sep k (proj1 Hk_name) Hk_sep) as [Hkey Hhas].
  (* the scan over the entries that were there *)
  destruct (scan_keeps sep d k Hsep Hk_sep (File P) (map fst nes) Hnames Hfn
              fs1 _ ces Hn1 Hc1) as (nes' & ces' & Hn2 & Hc2 & Hx & Hfc').
  { rewrite find_entry_app_absent by now apply fresh_absent.
    simpl. now rewrite String.eqb_refl. }
  { exact Hfc. }
  set (fs_m := after_renames sep d (map fst nes) fs1) in *.
  (* the rename of the delivered message *)
  pose proof (Rename_file_ok (root d) "new" "cur" new_is_not_cur k (seen_name sep k)
                fs_m nes' ces' P Hn2 Hx Hc2) as Hr.
  fold (sub d "new") (sub d "cur") in Hr.
  rewrite <- (Join_entry d "new" k entry_name_new Hk_name) in Hr.
  rewrite <- (Join_entry d "cur" _ entry_name_cur (entry_name_seen sep k Hsep Hk_name)) in Hr.
  assert (Hfree : find_entry (seen_name sep k) ces' = None).
  { apply find_entry_none. intros Hin. specialize (Hfc' _ Hin).
    unfold seen_name in Hfc'. now rewrite has_prefix_append in Hfc'. }
  specialize (Hr Hfree).
  set (fs2 := alter (set_entry (seen_name sep k) (File P)) (sub d "cur")
                (alter (remove_entry k) (sub d "new") fs_m)) in *.
  assert (Hc3 : entries_at (sub d "cur") fs2 = Some (ces' ++ [(seen_name sep k, File P)])).
  { unfold fs2, sub. rewrite (moved_target (root d) "new" "cur" new_is_not_cur).
    fold (sub d "cur"). rewrite Hc2. simpl. now rewrite set_entry_absent. }
  assert (Hafter : after_renames sep d (map fst (nes ++ [(k, File P)])) fs1 = fs2).
  { rewrite map_app, after_renames_app. fold fs_m. simpl. now rewrite Hk_vis, Hr. }
  assert (Hseen : entry_name (seen_name sep k)) by now apply entry_name_seen.
  assert (Hfile : lookup (sub d "cur" ++ [seen_name sep k]) fs2 = Some (File P)).
  { rewrite lookup_snoc, Hc3, find_entry_app_absent by exact Hfree.
    simpl. now rewrite String.eqb_refl. }
  assert (Hopen : os.Open (sub d "cur" ++ [seen_name sep k]) fs2
                  = Ret (sub d "cur" ++ [seen_name sep k], None) fs2).
  { unfold os.Open. now rewrite Hfile. }
  assert (Hread : os.ReadAll (sub d "cur" ++ [seen_name sep k]) fs2 = Ret (P, None) fs2).
  { unfold os.ReadAll. now rewrite Hfile. }
  exists fs1, (map (key_of sep) (visible (map fst (nes ++ [(k, File P)])))), fs2,
    (sub d "cur" ++ [seen_name sep k]).
  split; [exact Hm|]. split; [|split; [|split; [|split]]].
  - rewrite (Unseen_listed sep d (map fst (nes ++ [(k, File P)])) fs1).
    + rewrite Unseen_loop_keys, Hafter; [reflexivity| |].
      * apply entry_names_nonempty. rewrite map_app. apply Forall_app. split; [exact Hnames|].
        simpl. constructor; [exact Hk_name | constructor].
      * rewrite map_app, visible_app. apply Forall_app. split; [exact Hkeys|].
        simpl. rewrite Hk_vis. simpl. constructor; [exact Hhas | constructor].
    + rewrite (Join_sub d "new" entry_name_new). now apply Readdirnames_entries.
  - rewrite map_app, visible_app, map_app. apply in_or_app. right.
    simpl. rewrite Hk_vis. simpl. left. exact Hkey.
  - rewrite Filename_plain by (auto; apply Hk_name).
    rewrite (candidates_single d k (seen_name sep k) fs2 Hseen); [reflexivity|].
    unfold names_at. rewrite Hc3, map_app, filter_app. simpl.
    rewrite key_matches_seen by exact Hsep.
    rewrite filter_none; [reflexivity|].
    intros n Hin. apply key_matches_prefix. now apply Hfc'.
  - exact Hread.
  - unfold cat, bind, ret. rewrite Hopen. cbv beta iota. now rewrite Hread.
Qed.

(** A delivery of two bytes into a mailbox that holds an unseen and a
    seen message. *)
Lemma delivery_round_trip_witness :
  exists fs1 keys fs2 p,
    makeDelivery "m" "1700000000.host.42" (string_of_list_byte [x68; x69])
                 (mailbox [] [("old", File [])] [("seen:2,S", File [x00])])
    = Ret None fs1
    /\ Unseen ":" "m" fs1 = Ret (keys, None) fs2
    /\ In "1700000000.host.42" keys
    /\ Filename "m" "1700000000.host.42" fs2 = Ret (p, None) fs2
    /\ os.ReadAll p fs2 = Ret ([x68; x69], None) fs2
    /\ cat p fs2 = Ret (string_of_list_byte [x68; x69], None) fs2.
Proof.
  apply (delivery_round_trip ":" "m" "1700000000.host.42" [x68; x69]
           (mailbox [] [("old", File [])] [("seen:2,S", File [x00])])
           [] [("old", File [])] [("seen:2,S", File [x00])]);
    try reflexivity; try discriminate.
  - entry_names.
  - entry_names.
  - repeat constructor; discriminate.
  - intros n [<-|[]]. reflexivity.
  - intros n [<-|[]]. reflexivity.
Defined.

(** * More of the package *)

(** ** When [new] or [cur] cannot be listed *)

Lemma Unseen_unlisted (sep : ascii) (d : Dir) (fs : FS) :
  entries_at (sub d "new") fs = None ->
  exists e, Unseen sep d fs = Ret ([], Some e) fs.
Proof.
  intros H. unfold Unseen, bind, ret, os.Open, os.Readdirnames.
  rewrite (Join_sub d "new" entry_name_new). unfold entries_at in H.
  destruct (lookup (sub d "new") fs) as [[data|es]|] eqn:E; try discriminate;
    cbv beta iota; rewrite ?E; now eexists.
Qed.

(** X1: [Unseen] returns an error exactly when [new] is not a directory
    it can list (missing, or a regular file); it then returns no key and
    renames nothing. *)
Theorem Unseen_error_iff (sep : ascii) (d : Dir) (fs : FS) :
  (entries_at (sub d "new") fs = None <->
   exists keys e fs', Unseen sep d fs = Ret (keys, Some e) fs')
  /\ forall keys e fs', Unseen sep d fs = Ret (keys, Some e) fs' -> keys = [] /\ fs' = fs.
Proof.
  assert (Hinv : forall keys e fs', Unseen sep d fs = Ret (keys, Some e) fs' ->
                 entries_at (sub d "new") fs = None /\ keys = [] /\ fs' = fs).
  { intros keys e fs'. destruct (entries_at (sub d "new") fs) as [es|] eqn:E.
    - rewrite (Unseen_listed sep d (map fst es) fs)
        by (rewrite (Join_sub d "new" entry_name_new); now apply Readdirnames_entries).
      destruct (Unseen_loop sep d (map fst es) [] fs); discriminate.
    - destruct (Unseen_unlisted sep d fs E) as (e' & ->). now intros [= <- _ <-]. }
  split; [split|].
  - intros H. destruct (Unseen_unlisted sep d fs H) as (e & He). now exists [], e, fs.
  - intros (keys & e & fs' & H). now apply Hinv in H.
  - intros keys e fs' H. now apply Hinv in H.
Qed.

Lemma Keys_unlisted (d : Dir) (fs : FS) :
  entries_at (sub d "cur") fs = None ->
  exists e, Keys d fs = Ret ([], Some e) fs.
Proof.
  intros H. unfold Keys, bind, ret, os.Open, os.Readdirnames.
  rewrite Join_cur_slash. unfold entries_at in H.
  destruct (lookup (sub d "cur") fs) as [[data|es]|] eqn:E; try discriminate;
    cbv beta iota; rewrite ?E; now eexists.
Qed.

Lemma Keys_listed (d : Dir) (es : list (string * node)) (fs : FS) :
  entries_at (sub d "cur") fs = Some es ->
  Keys d fs =
  match Keys_loop (map fst es) [] fs with
  | Ret keys fs' => Ret (keys, None) fs'
  | Panic msg => Panic msg
  end.
Proof.
  intros H. unfold Keys, bind, ret, os.Open.
  now rewrite Join_cur_slash, (entries_lookup _ _ _ H), (Readdirnames_entries _ _ _ H).
Qed.

(** X2: [Keys] returns an error exactly when [cur] is not a directory it
    can list; it then returns no key.  Whatever it returns, it leaves the
    tree as it is. *)
Theorem Keys_error_iff (d : Dir) (fs : FS) :
  (entries_at (sub d "cur") fs = None <->
   exists keys e fs', Keys d fs = Ret (keys, Some e) fs')
  /\ (forall keys e fs', Keys d fs = Ret (keys, Some e) fs' -> keys = [])
  /\ (forall r fs', Keys d fs = Ret r fs' -> fs' = fs).
Proof.
  assert (Hinv : forall keys e fs', Keys d fs = Ret (keys, Some e) fs' ->
                 entries_at (sub d "cur") fs = None /\ keys = []).
  { intros keys e fs'. destruct (entries_at (sub d "cur") fs) as [es|] eqn:E.
    - rewrite (Keys_listed d es fs E).
      destruct (Keys_loop (map fst es) [] fs); discriminate.
    - destruct (Keys_unlisted d fs E) as (e' & ->). now intros [= <- _ _]. }
  split; [split|split].
  - intros H. destruct (Keys_unlisted d fs H) as (e & He). now exists [], e, fs.
  - intros (keys & e & fs' & H). now apply Hinv in H.
  - intros keys e fs' H. now apply Hinv in H.
  - apply Keys_reads.
Qed.

(** ** The keys that come back, and when the scan panics *)

Lemma fields_nonempty (f : ascii -> bool) (s field : string) :
  Forall (fun x => x <> "") (strings.fields f field s).
Proof.
  revert field. induction s as [|c s IH]; intros field; simpl.
  - destruct field; simpl; repeat constructor. discriminate.
  - destruct (f c); [|apply IH].
    destruct field; simpl; [apply IH|]. constructor; [discriminate | apply IH].
Qed.

Lemma key_of_nonempty (sep : ascii) (n : string) : has_key sep n -> key_of sep n <> "".
Proof.
  unfold has_key, key_of, strings.FieldsFunc. intros H.
  pose proof (fields_nonempty (fun r => Ascii.eqb r sep) n "") as HF.
  destruct (strings.fields (fun r => Ascii.eqb r sep) "" n) as [|k ks]; [congruence|].
  now inversion HF.
Qed.

(** A name has a key unless it is made of separators only. *)
Lemma has_key_iff (sep : ascii) (n : string) :
  has_key sep n <-> only_separators sep n = false.
Proof.
  induction n as [|a s IH].
  - split; [intros H; now contradiction H | discriminate].
  - simpl. destruct (Ascii.eqb a sep) eqn:E.
    + rewrite <- IH. unfold has_key, strings.FieldsFunc. simpl. rewrite E. reflexivity.
    + split; [reflexivity | intros _; now apply has_key_first].
Qed.

(** The loop returns only if every name is non-empty and every visible
    name has a key. *)
Lemma Unseen_loop_returns (sep : ascii) (d : Dir) (names : list string) :
  forall (keys r : list string) (fs fs' : FS),
    Unseen_loop sep d names keys fs = Ret r fs' ->
    Forall (fun n => n <> "") names /\ Forall (has_key sep) (visible names).
Proof.
  induction names as [|n names IH]; intros keys r fs fs' H.
  - split; constructor.
  - destruct n as [|c s]; [discriminate|].
    cbn [Unseen_loop byte0 visible filter hidden] in *.
    unfold bind at 1 in H. unfold ret at 1 in H.
    destruct (Ascii.eqb c ".") eqn:Ec; cbn [negb] in *.
    + destruct (IH _ _ _ _ H) as [H1 H2]. split; [constructor; [discriminate|]|]; assumption.
    + unfold bind at 1 in H.
      destruct (strings.FieldsFunc (String c s) (fun r => Ascii.eqb r sep)) as [|k ks] eqn:EF;
        [discriminate|].
      cbn [elem0] in H. unfold ret at 1 in H. unfold bind at 1 in H.
      destruct (os.Rename _ _ fs) as [e fs1|msg]; [|discriminate].
      destruct (IH _ _ _ _ H) as [H1 H2]. split.
      * constructor; [discriminate | assumption].
      * constructor; [|assumption]. unfold has_key. rewrite EF. discriminate.
Qed.

Lemma Unseen_loop_panics (sep : ascii) (d : Dir) (names : list string) :
  Forall (fun n => n <> "") names ->
  Exists (fun n => only_separators sep n = true) (visible names) ->
  forall (keys : list string) (fs : FS),
    Unseen_loop sep d names keys fs = Panic index_out_of_range.
Proof.
  intros Hne Hex keys fs.
  destruct (Unseen_loop sep d names keys fs) as [r fs'|msg] eqn:E.
  - exfalso. apply Unseen_loop_returns in E as [_ Hk].
    apply Exists_exists in Hex as (n & Hn & Hs). rewrite Forall_forall in Hk.
    apply Hk, has_key_iff in Hn. congruence.
  - f_equal. clear Hex. revert keys fs E.
    induction names as [|n names IH]; intros keys fs E; [discriminate|].
    inversion Hne as [|? ? Hn Hne']; subst.
    destruct n as [|c s]; [congruence|].
    cbn [Unseen_loop byte0] in E. unfold bind at 1 in E. unfold ret at 1 in E.
    destruct (negb (Ascii.eqb c ".")); [|now apply (IH Hne' keys fs)].
    unfold bind at 1 in E.
    destruct (strings.FieldsFunc (String c s) (fun r => Ascii.eqb r sep)) as [|k ks];
      [now injection E|].
    cbn [elem0] in E. unfold ret at 1 in E. unfold bind at 1 in E.
    destruct (os.Rename _ _ fs) as [e fs1|msg'] eqn:ER; [exact (IH Hne' _ fs1 E)|].
    match type of ER with
    | os.Rename ?a ?b ?f = _ => destruct (Rename_returns a b f) as (e & fs1 & Hr & _)
    end.
    congruence.
Qed.

(** X3: the keys [Unseen] returns with a nil error are the first fields of
    the visible names of [new], one per visible entry in listing order;
    none of them is empty and none holds the separator. *)
Theorem Unseen_keys_well_formed (sep : ascii) (d : Dir) (fs fs' : FS) (keys : list string) :
  Unseen sep d fs = Ret (keys, None) fs' ->
  keys = map (key_of sep) (visible (names_at (sub d "new") fs))
  /\ List.length keys = List.length (visible (names_at (sub d "new") fs))
  /\ Forall (fun k => k <> "" /\ contains sep k = false) keys.
Proof.
  intros H. unfold names_at.
  destruct (entries_at (sub d "new") fs) as [es|] eqn:E.
  - rewrite (Unseen_listed sep d (map fst es) fs) in H
      by (rewrite (Join_sub d "new" entry_name_new); now apply Readdirnames_entries).
    destruct (Unseen_loop sep d (map fst es) [] fs) as [r fs1|msg] eqn:EL; [|discriminate].
    injection H as -> ->.
    destruct (Unseen_loop_returns _ _ _ _ _ _ _ EL) as [Hne Hk].
    rewrite Unseen_loop_keys in EL by assumption. injection EL as <- _. simpl.
    split; [reflexivity|]. split; [apply length_map|].
    rewrite Forall_forall in *. intros k Hin. apply in_map_iff in Hin as (n & <- & Hn).
    split; [now apply key_of_nonempty, Hk | apply key_of_no_sep].
  - destruct (Unseen_unlisted sep d fs E) as (e & He). congruence.
Qed.

Lemma Unseen_keys_well_formed_witness :
  [ "a"; "b" ] = map (key_of ":") (visible (names_at (sub "m" "new")
                   (mailbox [] [("a", File []); (".h", File []); ("b:x", File [])] [])))
  /\ List.length [ "a"; "b" ]
     = List.length (visible (names_at (sub "m" "new")
                      (mailbox [] [("a", File []); (".h", File []); ("b:x", File [])] [])))
  /\ Forall (fun k => k <> "" /\ contains ":" k = false) [ "a"; "b" ].
Proof.
  apply (Unseen_keys_well_formed ":" "m"
           (mailbox [] [("a", File []); (".h", File []); ("b:x", File [])] [])
           (mailbox [] [(".h", File [])] [("a:2,S", File []); ("b:x:2,S", File [])])).
  reflexivity.
Defined.

Lemma Keys_loop_returns (names : list string) :
  forall (keys r : list string) (fs fs' : FS),
    Keys_loop names keys fs = Ret r fs' ->
    Forall (fun n => n <> "") names /\ Forall (has_key ":") (visible names).
Proof.
  induction names as [|n names IH]; intros keys r fs fs' H.
  - split; constructor.
  - destruct n as [|c s]; [discriminate|].
    cbn [Keys_loop byte0 visible filter hidden] in *.
    unfold bind at 1 in H. unfold ret at 1 in H.
    destruct (Ascii.eqb c ".") eqn:Ec; cbn [negb] in *.
    + destruct (IH _ _ _ _ H) as [H1 H2]. split; [constructor; [discriminate|]|]; assumption.
    + unfold bind at 1 in H.
      destruct (strings.FieldsFunc (String c s) (fun r => Ascii.eqb r ":")) as [|k ks] eqn:EF;
        [discriminate|].
      cbn [elem0] in H. unfold ret at 1 in H.
      destruct (IH _ _ _ _ H) as [H1 H2]. split.
      * constructor; [discriminate | assumption].
      * constructor; [|assumption]. unfold has_key. rewrite EF. discriminate.
Qed.

Lemma Keys_loop_panics (names : list string) :
  Forall (fun n => n <> "") names ->
  Exists (fun n => only_separators ":" n = true) (visible names) ->
  forall (keys : list string) (fs : FS),
    Keys_loop names keys fs = Panic index_out_of_range.
Proof.
  intros Hne Hex keys fs.
  destruct (Keys_loop names keys fs) as [r fs'|msg] eqn:E.
  - exfalso. apply Keys_loop_returns in E as [_ Hk].
    apply Exists_exists in Hex as (n & Hn & Hs). rewrite Forall_forall in Hk.
    apply Hk, has_key_iff in Hn. congruence.
  - f_equal. clear Hex. revert keys E.
    induction names as [|n names IH]; intros keys E; [discriminate|].
    inversion Hne as [|? ? Hn Hne']; subst.
    destruct n as [|c s]; [congruence|].
    cbn [Keys_loop byte0] in E. unfold bind at 1 in E. unfold ret at 1 in E.
    destruct (negb (Ascii.eqb c ".")); [|now apply (IH Hne' keys)].
    unfold bind at 1 in E.
    destruct (strings.FieldsFunc (String c s) (fun r => Ascii.eqb r ":")) as [|k ks];
      [now injection E|].
    cbn [elem0] in E. unfold ret at 1 in E. exact (IH Hne' _ E).
Qed.

(** X4: with a listing of non-empty names, [Unseen] panics exactly when
    some visible name of [new] is made of separators only, and [Keys]
    exactly when some visible name of [cur] is made of colons only; the
    panic is the index out of range of [split[0]]. *)
Theorem panic_iff_separator_name (sep : ascii) (d : Dir) (fs : FS) :
  (Forall (fun n => n <> "") (names_at (sub d "new") fs) ->
   ((exists msg, Unseen sep d fs = Panic msg) <->
    Exists (fun n => only_separators sep n = true) (visible (names_at (sub d "new") fs)))
   /\ forall msg, Unseen sep d fs = Panic msg -> msg = index_out_of_range)
  /\ (Forall (fun n => n <> "") (names_at (sub d "cur") fs) ->
      ((exists msg, Keys d fs = Panic msg) <->
       Exists (fun n => only_separators ":" n = true) (visible (names_at (sub d "cur") fs)))
      /\ forall msg, Keys d fs = Panic msg -> msg = index_out_of_range).
Proof.
  assert (Hdec : forall s l, Exists (fun n => only_separators s n = true) l
                             \/ Forall (has_key s) l).
  { intros s l. induction l as [|n l [IH|IH]].
    - right. constructor.
    - left. now right.
    - destruct (only_separators s n) eqn:E.
      + left. now left.
      + right. constructor; [now apply has_key_iff | exact IH]. }
  split; intros Hne; unfold names_at in *.
  - destruct (entries_at (sub d "new") fs) as [es|] eqn:E.
    + rewrite (Unseen_listed sep d (map fst es) fs)
        by (rewrite (Join_sub d "new" entry_name_new); now apply Readdirnames_entries).
      destruct (Hdec sep (visible (map fst es))) as [Hex|Hall].
      * rewrite (Unseen_loop_panics sep d _ Hne Hex). split.
        -- split; [intros _; exact Hex | intros _; now eexists].
        -- now intros msg [= <-].
      * rewrite Unseen_loop_keys by assumption. split.
        -- split; [intros (msg & H); discriminate|].
           intros Hex. exfalso. apply Exists_exists in Hex as (n & Hn & Hs).
           rewrite Forall_forall in Hall. apply Hall, has_key_iff in Hn. congruence.
        -- discriminate.
    + destruct (Unseen_unlisted sep d fs E) as (e & ->). split.
      * split; [intros (msg & H); discriminate | intros H; inversion H].
      * discriminate.
  - destruct (entries_at (sub d "cur") fs) as [es|] eqn:E.
    + rewrite (Keys_listed d es fs E).
      destruct (Hdec ":"%char (visible (map fst es))) as [Hex|Hall].
      * rewrite (Keys_loop_panics _ Hne Hex). split.
        -- split; [intros _; exact Hex | intros _; now eexists].
        -- now intros msg [= <-].
      * rewrite Keys_loop_keys by assumption. split.
        -- split; [intros (msg & H); discriminate|].
           intros Hex. exfalso. apply Exists_exists in Hex as (n & Hn & Hs).
           rewrite Forall_forall in Hall. apply Hall, has_key_iff in Hn. congruence.
        -- discriminate.
    + destruct (Keys_unlisted d fs E) as (e & ->). split.
      * split; [intros (msg & H); discriminate | intros H; inversion H].
      * discriminate.
Qed.

(** ** What the scan leaves alone, whatever its renames do *)

Lemma lookup_alter_diverge (f : list (string * node) -> list (string * node))
      (p q : path) (t : node) :
  diverge p q -> lookup q (alter f p t) = lookup q t.
Proof.
  intros (c & a & b & r & r' & -> & -> & Hab). now apply lookup_alter_other.
Qed.

(** The tree [Unseen] leaves is the one its renames leave. *)
Lemma Unseen_tree (sep : ascii) (d : Dir) (fs fs' : FS) (r : list string * option error) :
  Unseen sep d fs = Ret r fs' ->
  fs' = after_renames sep d (names_at (sub d "new") fs) fs.
Proof.
  intros H. unfold names_at.
  destruct (entries_at (sub d "new") fs) as [es|] eqn:E.
  - rewrite (Unseen_listed sep d (map fst es) fs) in H
      by (rewrite (Join_sub d "new" entry_name_new); now apply Readdirnames_entries).
    destruct (Unseen_loop sep d (map fst es) [] fs) as [keys fs1|msg] eqn:EL; [|discriminate].
    injection H as _ <-.
    destruct (Unseen_loop_returns _ _ _ _ _ _ _ EL) as [Hne Hk].
    rewrite Unseen_loop_keys in EL by assumption. now injection EL.
  - destruct (Unseen_unlisted sep d fs E) as (e & He). rewrite He in H. now injection H.
Qed.

Section ScanAny.

Variables (sep : ascii) (d : Dir).
Hypothesis Hsep : sep <> "/"%char.

(** One rename of the scan: it fails and changes nothing, or it moves the
    entry. *)
Lemma seen_rename_cases (n : string) (fs : FS) :
  entry_name n ->
  exists e fs',
    os.Rename (filepath.Join [d; "new"; n]) (filepath.Join [d; "cur"; seen_name sep n]) fs
    = Ret e fs'
    /\ ((e <> None /\ fs' = fs)
        \/ (e = None
            /\ (exists x nes ces,
                  entries_at (sub d "new") fs = Some nes /\ find_entry n nes = Some x /\
                  entries_at (sub d "cur") fs = Some ces /\
                  entries_at (sub d "new") fs' = Some (remove_entry n nes) /\
                  entries_at (sub d "cur") fs' = Some (set_entry (seen_name sep n) x ces))
            /\ (forall q, diverge (sub d "new") q -> diverge (sub d "cur") q ->
                          lookup q fs' = lookup q fs))).
Proof.
  intros Hn.
  destruct (Rename_returns (filepath.Join [d; "new"; n])
              (filepath.Join [d; "cur"; seen_name sep n]) fs) as ([e|] & fs' & Hr & Hsame).
  - exists (Some e), fs'. split; [exact Hr|]. left. split; [discriminate|].
    apply Hsame. discriminate.
  - exists None, fs'. split; [exact Hr|]. right. split; [reflexivity|]. split.
    + exact (seen_rename_ok sep d Hsep n fs fs' Hn Hr).
    + intros q Hq1 Hq2.
      rewrite (Join_entry d "new" n entry_name_new Hn) in Hr.
      rewrite (Join_entry d "cur" _ entry_name_cur (entry_name_seen sep n Hsep Hn)) in Hr.
      unfold sub in Hr.
      apply (Rename_ok_inv (root d) "new" "cur" new_is_not_cur) in Hr
        as (x & nes & ces & _ & _ & _ & ->).
      fold (sub d "new") (sub d "cur").
      now rewrite !lookup_alter_diverge.
Qed.

Lemma after_renames_outside (names : list string) :
  Forall entry_name names ->
  forall (fs : FS) (q : path),
    diverge (sub d "new") q -> diverge (sub d "cur") q ->
    lookup q (after_renames sep d names fs) = lookup q fs.
Proof.
  induction names as [|n names IH]; intros Hnames fs q Hq1 Hq2; [reflexivity|].
  inversion Hnames as [|? ? Hn Hnames']; subst.
  cbn [after_renames]. destruct (hidden n); [now apply IH|].
  destruct (seen_rename_cases n fs Hn) as (e & fs' & -> & [[_ ->]|(_ & _ & Hout)]).
  - now apply IH.
  - rewrite IH by assumption. now apply Hout.
Qed.

Lemma after_renames_new_other (names : list string) :
  Forall entry_name names ->
  forall (fs : FS) (q : string),
    ~ In q (visible names) ->
    lookup (sub d "new" ++ [q]) (after_renames sep d names fs)
    = lookup (sub d "new" ++ [q]) fs.
Proof.
  induction names as [|n names IH]; intros Hnames fs q Hq; [reflexivity|].
  inversion Hnames as [|? ? Hn Hnames']; subst.
  cbn [after_renames visible filter] in *. destruct (hidden n); cbn [negb] in *; [now apply IH|].
  destruct (seen_rename_cases n fs Hn)
    as (e & fs' & -> & [[_ ->]|(_ & (x & nes & ces & H1 & H2 & H3 & H4 & H5) & _)]).
  - apply IH; auto. intros Hin. apply Hq. now right.
  - rewrite IH; auto.
    + rewrite !lookup_snoc, H1, H4. apply find_entry_remove_other.
      intros ->. apply Hq. now left.
    + intros Hin. apply Hq. now right.
Qed.

Lemma after_renames_cur_other (names : list string) :
  Forall entry_name names ->
  forall (fs : FS) (q : string),
    (forall n, In n (visible names) -> seen_name sep n <> q) ->
    lookup (sub d "cur" ++ [q]) (after_renames sep d names fs)
    = lookup (sub d "cur" ++ [q]) fs.
Proof.
  induction names as [|n names IH]; intros Hnames fs q Hq; [reflexivity|].
  inversion Hnames as [|? ? Hn Hnames']; subst.
  cbn [after_renames visible filter] in *. destruct (hidden n); cbn [negb] in *; [now apply IH|].
  destruct (seen_rename_cases n fs Hn)
    as (e & fs' & -> & [[_ ->]|(_ & (x & nes & ces & H1 & H2 & H3 & H4 & H5) & _)]).
  - apply IH; auto. intros m Hm. apply Hq. now right.
  - rewrite IH; auto.
    + rewrite !lookup_snoc, H3, H5. apply find_entry_set_other. apply Hq. now left.
    + intros m Hm. apply Hq. now right.
Qed.

(** Once an entry is gone from [new], the rest of the scan leaves its name
    in [new] and its target in [cur] alone. *)
Lemma after_renames_gone (names : list string) :
  Forall entry_name names ->
  forall (fs : FS) (n : string),
    lookup (sub d "new" ++ [n]) fs = None ->
    lookup (sub d "new" ++ [n]) (after_renames sep d names fs) = None
    /\ lookup (sub d "cur" ++ [seen_name sep n]) (after_renames sep d names fs)
       = lookup (sub d "cur" ++ [seen_name sep n]) fs.
Proof.
  induction names as [|m names IH]; intros Hnames fs n Hgone; [now split|].
  inversion Hnames as [|? ? Hm Hnames']; subst.
  cbn [after_renames]. destruct (hidden m); [now apply IH|].
  destruct (seen_rename_cases m fs Hm)
    as (e & fs' & -> & [[_ ->]|(_ & (x & nes & ces & H1 & H2 & H3 & H4 & H5) & _)]).
  - now apply IH.
  - assert (Hmn : m <> n).
    { intros ->. rewrite lookup_snoc, H1, H2 in Hgone. discriminate. }
    destruct (IH Hnames' fs' n) as [Hn Hc].
    + rewrite lookup_snoc, H4, find_entry_remove_other by exact Hmn.
      now rewrite lookup_snoc, H1 in Hgone.
    + split; [exact Hn|]. rewrite Hc, !lookup_snoc, H3, H5.
      apply find_entry_set_other. intros E. now apply seen_name_inj in E.
Qed.

(** An entry that is in [new] after the scan over [names] was not touched
    on the way, and neither was its target in [cur]. *)
Lemma after_renames_still (names : list string) :
  Forall entry_name names ->
  forall (fs : FS) (n : string),
    lookup (sub d "new" ++ [n]) (after_renames sep d names fs) <> None ->
    lookup (sub d "new" ++ [n]) (after_renames sep d names fs)
    = lookup (sub d "new" ++ [n]) fs
    /\ lookup (sub d "cur" ++ [seen_name sep n]) (after_renames sep d names fs)
       = lookup (sub d "cur" ++ [seen_name sep n]) fs.
Proof.
  induction names as [|m names IH]; intros Hnames fs n Hstill; [now split|].
  inversion Hnames as [|? ? Hm Hnames']; subst.
  cbn [after_renames] in *. destruct (hidden m); [now apply IH|].
  destruct (seen_rename_cases m fs Hm)
    as (e & fs' & Hr & [[_ ->]|(_ & (x & nes & ces & H1 & H2 & H3 & H4 & H5) & _)]);
    rewrite Hr in *.
  - now apply IH.
  - destruct (String.eqb_spec m n) as [->|Hmn].
    + exfalso. apply Hstill.
      apply (after_renames_gone names Hnames' fs' n).
      rewrite lookup_snoc, H4. apply find_entry_remove_same.
    + destruct (IH Hnames' fs' n Hstill) as [Hn Hc]. split.
      * rewrite Hn, !lookup_snoc, H1, H4. now apply find_entry_remove_other.
      * rewrite Hc, !lookup_snoc, H3, H5.
        apply find_entry_set_other. intros E. now apply seen_name_inj in E.
Qed.

(** The entry whose rename succeeds when the scan reaches it is in [cur]
    under its new name when the scan ends, and gone from [new], whatever
    the other renames do. *)
Lemma after_renames_moved (pre post : list string) (n : string) (fs fs1 : FS) :
  Forall entry_name (pre ++ n :: post) ->
  hidden n = false ->
  os.Rename (filepath.Join [d; "new"; n]) (filepath.Join [d; "cur"; seen_name sep n])
            (after_renames sep d pre fs) = Ret None fs1 ->
  exists x,
    lookup (sub d "new" ++ [n]) fs = Some x
    /\ lookup (sub d "cur" ++ [seen_name sep n]) (after_renames sep d (pre ++ n :: post) fs)
       = Some x
    /\ lookup (sub d "new" ++ [n]) (after_renames sep d (pre ++ n :: post) fs) = None.
Proof.
  intros Hnames Hvis Hr.
  apply Forall_app in Hnames as [Hpre Hrest].
  inversion Hrest as [|? ? Hn Hpost]; subst.
  destruct (seen_rename_ok sep d Hsep n _ fs1 Hn Hr)
    as (x & nes & ces & H1 & H2 & H3 & H4 & H5).
  exists x. rewrite after_renames_app. cbn [after_renames]. rewrite Hvis, Hr.
  destruct (after_renames_gone post Hpost fs1 n) as [Hg Hc].
  { rewrite lookup_snoc, H4. apply find_entry_remove_same. }
  split; [|split].
  - destruct (after_renames_still pre Hpre fs n) as [Hs _].
    { rewrite lookup_snoc, H1, H2. discriminate. }
    rewrite <- Hs. now rewrite lookup_snoc, H1, H2.
  - rewrite Hc, lookup_snoc, H5. apply find_entry_set_same.
  - exact Hg.
Qed.

(** A visible entry is where it was, with what stood at its target in
    [cur] as it was, or it is in [cur] under its new name. *)
Lemma after_renames_conserves (names : list string) :
  Forall entry_name names -> NoDup names ->
  forall (fs : FS) (n : string) (x : node),
    In n (visible names) ->
    lookup (sub d "new" ++ [n]) fs = Some x ->
    (lookup (sub d "new" ++ [n]) (after_renames sep d names fs) = Some x
     /\ lookup (sub d "cur" ++ [seen_name sep n]) (after_renames sep d names fs)
        = lookup (sub d "cur" ++ [seen_name sep n]) fs)
    \/ (lookup (sub d "new" ++ [n]) (after_renames sep d names fs) = None
        /\ lookup (sub d "cur" ++ [seen_name sep n]) (after_renames sep d names fs) = Some x).
Proof.
  induction names as [|m names IH]; intros Hnames Hnd fs n x Hin Hx; [contradiction|].
  inversion Hnames as [|? ? Hm Hnames']; subst.
  inversion Hnd as [|? ? Hfresh Hnd']; subst.
  assert (Hvis : forall l y, In y (visible l) -> In y l)
    by (intros l y Hy; now apply filter_In in Hy).
  pose proof (after_renames_new_other names Hnames') as Hnew.
  pose proof (after_renames_cur_other names Hnames') as Hcur.
  cbn [after_renames visible filter] in *. destruct (hidden m); cbn [negb] in *; [now apply IH|].
  destruct (seen_rename_cases m fs Hm)
    as (e & fs' & -> & [[_ ->]|(_ & (y & nes & ces & H1 & H2 & H3 & H4 & H5) & _)]).
  - destruct Hin as [->|Hin]; [|now apply IH].
    left. split.
    + rewrite Hnew; auto.
    + apply Hcur. intros r Hr E. apply seen_name_inj in E. subst r. auto.
  - destruct (String.eqb_spec m n) as [->|Hmn].
    + right. rewrite lookup_snoc, H1, H2 in Hx. injection Hx as ->. split.
      * rewrite Hnew by auto. rewrite lookup_snoc, H4. apply find_entry_remove_same.
      * rewrite Hcur.
        -- rewrite lookup_snoc, H5. apply find_entry_set_same.
        -- intros r Hr E. apply seen_name_inj in E. subst r. auto.
    + destruct Hin as [E|Hin]; [contradiction|].
      assert (Hc' : lookup (sub d "cur" ++ [seen_name sep n]) fs'
                    = lookup (sub d "cur" ++ [seen_name sep n]) fs).
      { rewrite !lookup_snoc, H3, H5. apply find_entry_set_other.
        intros E. now apply seen_name_inj in E. }
      rewrite <- Hc'. apply IH; auto.
      rewrite lookup_snoc, H4, find_entry_remove_other by exact Hmn.
      now rewrite lookup_snoc, H1 in Hx.
Qed.

End ScanAny.

(** ** The name an entry gets in [cur] *)

(** C6 (amended): a visible entry [n] of [new] whose own rename succeeds
    when the loop of [Unseen] reaches it, whatever the renames of the
    other entries do, is after the call in [cur] under its full name
    followed by the separator and [2,S], and [new] holds it no more.  That
    name is the key followed by the separator and [2,S] exactly when [n]
    holds no separator.  [new] can be listed and every visible name has a
    key. *)
Theorem Unseen_target_name (sep : ascii) (d : Dir) (names : list string) (fs : FS) :
  sep <> "/"%char ->
  os.Readdirnames (filepath.Join [d; "new"]) fs = Ret (names, None) fs ->
  Forall entry_name names ->
  Forall (has_key sep) (visible names) ->
  exists keys fs',
    Unseen sep d fs = Ret (keys, None) fs'
    /\ forall pre n post keys0 fs0 fs1,
         names = pre ++ n :: post ->
         hidden n = false ->
         Unseen_loop sep d pre [] fs = Ret keys0 fs0 ->
         os.Rename (filepath.Join [d; "new"; n]) (filepath.Join [d; "cur"; seen_name sep n]) fs0
         = Ret None fs1 ->
         exists x,
           lookup (sub d "new" ++ [n]) fs = Some x
           /\ lookup (sub d "cur" ++ [n +:+ String sep seen_flags]) fs' = Some x
           /\ lookup (sub d "new" ++ [n]) fs' = None
           /\ (contains sep n = false <->
               n +:+ String sep seen_flags = key_of sep n +:+ String sep seen_flags).
Proof.
  intros Hsep Hl Hnames Hkeys.
  exists (map (key_of sep) (visible names)), (after_renames sep d names fs). split.
  - rewrite (Unseen_listed sep d names fs Hl).
    rewrite Unseen_loop_keys; auto using entry_names_nonempty.
  - intros pre n post keys0 fs0 fs1 -> Hvis Hloop Hr.
    assert (Hpre : Forall entry_name pre) by (apply Forall_app in Hnames; tauto).
    assert (Hn : entry_name n).
    { apply Forall_app in Hnames as [_ H]. now inversion H. }
    rewrite Unseen_loop_keys in Hloop.
    + injection Hloop as _ <-.
      destruct (after_renames_moved sep d Hsep pre post n fs fs1 Hnames Hvis Hr)
        as (x & Hx & Hc & Hg).
      exists x. repeat split; auto.
      * intros Hc'. f_equal. symmetry. apply key_of_no_separator; auto. apply Hn.
      * intros E. apply append_cancel_r in E. rewrite E. apply key_of_no_sep.
    + now apply entry_names_nonempty.
    + rewrite visible_app in Hkeys. apply Forall_app in Hkeys. tauto.
Qed.

(** The rename of [a] fails, a directory stands at its target; the rename
    of [b:x] after it succeeds. *)
Lemma Unseen_target_name_witness :
  exists keys fs',
    Unseen ":" "m" (mailbox [] [("a", File [x01]); ("b:x", File [x02])] [("a:2,S", Folder [])])
    = Ret (keys, None) fs'
    /\ forall pre n post keys0 fs0 fs1,
         ["a"; "b:x"] = pre ++ n :: post ->
         hidden n = false ->
         Unseen_loop ":" "m" pre []
                     (mailbox [] [("a", File [x01]); ("b:x", File [x02])] [("a:2,S", Folder [])])
         = Ret keys0 fs0 ->
         os.Rename (filepath.Join ["m"; "new"; n]) (filepath.Join ["m"; "cur"; seen_name ":" n]) fs0
         = Ret None fs1 ->
         exists x,
           lookup (sub "m" "new" ++ [n])
                  (mailbox [] [("a", File [x01]); ("b:x", File [x02])] [("a:2,S", Folder [])])
           = Some x
           /\ lookup (sub "m" "cur" ++ [n +:+ String ":" seen_flags]) fs' = Some x
           /\ lookup (sub "m" "new" ++ [n]) fs' = None
           /\ (contains ":" n = false <->
               n +:+ String ":" seen_flags = key_of ":" n +:+ String ":" seen_flags).
Proof.
  apply (Unseen_target_name ":" "m" ["a"; "b:x"]).
  - discriminate.
  - reflexivity.
  - entry_names.
  - repeat constructor; discriminate.
Defined.

(** X5: [Unseen] changes nothing outside [new] and [cur]: whatever it
    returns, a path that parts from the path of [new] and from the path of
    [cur] (an entry of [tmp], another mailbox) leads to the same node as
    before.  The names of [new] are names a directory can hold and the
    separator is not the slash. *)
Theorem Unseen_outside_untouched
    (sep : ascii) (d : Dir) (fs fs' : FS) (r : list string * option error) (q : path) :
  sep <> "/"%char ->
  Forall entry_name (names_at (sub d "new") fs) ->
  Unseen sep d fs = Ret r fs' ->
  diverge (sub d "new") q -> diverge (sub d "cur") q ->
  lookup q fs' = lookup q fs.
Proof.
  intros Hsep Hnames H Hq1 Hq2. rewrite (Unseen_tree sep d fs fs' r H).
  now apply after_renames_outside.
Qed.

Lemma Unseen_outside_untouched_witness :
  lookup ["m"; "tmp"; "t"] (mailbox [("t", File [x07])] [] [("a:2,S", File [])])
  = lookup ["m"; "tmp"; "t"] (mailbox [("t", File [x07])] [("a", File [])] []).
Proof.
  apply (Unseen_outside_untouched ":" "m" _ _ (["a"], None)).
  - discriminate.
  - vm_compute. entry_names.
  - reflexivity.
  - exists ["m"], "new", "tmp", [], ["t"]. repeat split. discriminate.
  - exists ["m"], "cur", "tmp", [], ["t"]. repeat split. discriminate.
Defined.

(** X6: in [new], [Unseen] touches the visible entries only, and in [cur]
    only the names it writes: a dot file of [new] (any name that is not a
    visible entry) and an entry of [cur] whose name is not a visible name
    followed by the separator and [2,S] are after the call what they were
    before. *)
Theorem Unseen_touches_only_its_entries
    (sep : ascii) (d : Dir) (fs fs' : FS) (r : list string * option error) :
  sep <> "/"%char ->
  Forall entry_name (names_at (sub d "new") fs) ->
  Unseen sep d fs = Ret r fs' ->
  (forall h, ~ In h (visible (names_at (sub d "new") fs)) ->
             lookup (sub d "new" ++ [h]) fs' = lookup (sub d "new" ++ [h]) fs)
  /\ (forall c, (forall n, In n (visible (names_at (sub d "new") fs)) -> seen_name sep n <> c) ->
                lookup (sub d "cur" ++ [c]) fs' = lookup (sub d "cur" ++ [c]) fs).
Proof.
  intros Hsep Hnames H. rewrite (Unseen_tree sep d fs fs' r H). split.
  - intros h Hh. now apply after_renames_new_other.
  - intros c Hc. now apply after_renames_cur_other.
Qed.

Lemma Unseen_touches_only_its_entries_witness :
  (forall h, ~ In h (visible (names_at (sub "m" "new")
                        (mailbox [] [("a", File []); (".h", File [x01])] [("z:2,S", File [])]))) ->
             lookup (sub "m" "new" ++ [h])
                    (mailbox [] [(".h", File [x01])] [("z:2,S", File []); ("a:2,S", File [])])
             = lookup (sub "m" "new" ++ [h])
                      (mailbox [] [("a", File []); (".h", File [x01])] [("z:2,S", File [])]))
  /\ (forall c, (forall n, In n (visible (names_at (sub "m" "new")
                   (mailbox [] [("a", File []); (".h", File [x01])] [("z:2,S", File [])]))) ->
                           seen_name ":" n <> c) ->
                lookup (sub "m" "cur" ++ [c])
                       (mailbox [] [(".h", File [x01])] [("z:2,S", File []); ("a:2,S", File [])])
                = lookup (sub "m" "cur" ++ [c])
                         (mailbox [] [("a", File []); (".h", File [x01])] [("z:2,S", File [])])).
Proof.
  apply (Unseen_touches_only_its_entries ":" "m" _ _ (["a"], None)).
  - discriminate.
  - vm_compute. entry_names.
  - reflexivity.
Defined.

(** X7: [Unseen] keeps or moves every entry of [new], and replaces in
    [cur] only what stands at the name it writes: for a listing of [new]
    without repeated name, every visible entry [n] is after the call
    either still in [new], as it was, with what stood in [cur] at [n]
    followed by the separator and [2,S] as it was, or gone from [new] and
    in [cur] under that name with the same content, in the place of what
    stood there. *)
Theorem Unseen_keeps_or_moves
    (sep : ascii) (d : Dir) (fs fs' : FS) (r : list string * option error)
    (n : string) (x : node) :
  sep <> "/"%char ->
  Forall entry_name (names_at (sub d "new") fs) ->
  NoDup (names_at (sub d "new") fs) ->
  Unseen sep d fs = Ret r fs' ->
  In n (visible (names_at (sub d "new") fs)) ->
  lookup (sub d "new" ++ [n]) fs = Some x ->
  (lookup (sub d "new" ++ [n]) fs' = Some x
   /\ lookup (sub d "cur" ++ [seen_name sep n]) fs'
      = lookup (sub d "cur" ++ [seen_name sep n]) fs)
  \/ (lookup (sub d "new" ++ [n]) fs' = None
      /\ lookup (sub d "cur" ++ [seen_name sep n]) fs' = Some x).
Proof.
  intros Hsep Hnames Hnd H Hin Hx. rewrite (Unseen_tree sep d fs fs' r H).
  now apply after_renames_conserves.
Qed.

(** The entry [a] stays, a directory stands at its target; the entry [b]
    takes the place of the file that was at [b:2,S]. *)
Lemma Unseen_keeps_or_moves_witness :
  ((lookup (sub "m" "new" ++ ["a"])
           (mailbox [] [("a", File [x01])] [("a:2,S", Folder []); ("b:2,S", File [x02])])
    = Some (File [x01])
    /\ lookup (sub "m" "cur" ++ [seen_name ":" "a"])
              (mailbox [] [("a", File [x01])] [("a:2,S", Folder []); ("b:2,S", File [x02])])
       = lookup (sub "m" "cur" ++ [seen_name ":" "a"])
                (mailbox [] [("a", File [x01]); ("b", File [x02])]
                         [("a:2,S", Folder []); ("b:2,S", File [x09])]))
   \/ (lookup (sub "m" "new" ++ ["a"])
              (mailbox [] [("a", File [x01])] [("a:2,S", Folder []); ("b:2,S", File [x02])])
       = None
       /\ lookup (sub "m" "cur" ++ [seen_name ":" "a"])
                 (mailbox [] [("a", File [x01])] [("a:2,S", Folder []); ("b:2,S", File [x02])])
          = Some (File [x01])))
  /\ ((lookup (sub "m" "new" ++ ["b"])
              (mailbox [] [("a", File [x01])] [("a:2,S", Folder []); ("b:2,S", File [x02])])
       = Some (File [x02])
       /\ lookup (sub "m" "cur" ++ [seen_name ":" "b"])
                 (mailbox [] [("a", File [x01])] [("a:2,S", Folder []); ("b:2,S", File [x02])])
          = lookup (sub "m" "cur" ++ [seen_name ":" "b"])
                   (mailbox [] [("a", File [x01]); ("b", File [x02])]
                            [("a:2,S", Folder []); ("b:2,S", File [x09])]))
      \/ (lookup (sub "m" "new" ++ ["b"])
                 (mailbox [] [("a", File [x01])] [("a:2,S", Folder []); ("b:2,S", File [x02])])
          = None
          /\ lookup (sub "m" "cur" ++ [seen_name ":" "b"])
                    (mailbox [] [("a", File [x01])] [("a:2,S", Folder []); ("b:2,S", File [x02])])
             = Some (File [x02]))).
Proof.
  split.
  - apply (Unseen_keeps_or_moves ":" "m"
             (mailbox [] [("a", File [x01]); ("b", File [x02])]
                      [("a:2,S", Folder []); ("b:2,S", File [x09])])
             _ (["a"; "b"], None)).
    + discriminate.
    + vm_compute. entry_names.
    + vm_compute. repeat constructor; simpl; intuition discriminate.
    + reflexivity.
    + vm_compute. now left.
    + reflexivity.
  - apply (Unseen_keeps_or_moves ":" "m"
             (mailbox [] [("a", File [x01]); ("b", File [x02])]
                      [("a:2,S", Folder []); ("b:2,S", File [x09])])
             _ (["a"; "b"], None)).
    + discriminate.
    + vm_compute. entry_names.
    + vm_compute. repeat constructor; simpl; intuition discriminate.
    + reflexivity.
    + vm_compute. right. now left.
    + reflexivity.
Defined.

(** ** [Unseen], then [Keys] or [Filename] *)

Lemma emit_app (field : string) (l l' : list string) :
  strings.emit field (l ++ l') = strings.emit field l ++ l'.
Proof. unfold strings.emit. now destruct (is_empty field). Qed.

(** The fields of a text, a separator, and another text: those of the
    first, then those of the second. *)
Lemma fields_append_sep (f : ascii -> bool) (c : ascii) (s t field : string) :
  f c = true ->
  strings.fields f field (s +:+ String c t)
  = strings.fields f field s ++ strings.fields f "" t.
Proof.
  intros Hc. revert field. induction s as [|a s IH]; intros field; simpl.
  - rewrite Hc. now rewrite <- emit_app.
  - destruct (f a); [|apply IH]. now rewrite IH, emit_app.
Qed.

(** The name [Unseen] writes has the key of the name it read. *)
Lemma key_of_seen (sep : ascii) (n : string) :
  has_key sep n ->
  key_of sep (seen_name sep n) = key_of sep n /\ has_key sep (seen_name sep n).
Proof.
  unfold has_key, key_of, seen_name, strings.FieldsFunc. intros H.
  rewrite fields_append_sep by apply Ascii.eqb_refl.
  destruct (strings.fields (fun r => Ascii.eqb r sep) "" n); [congruence|].
  split; [reflexivity | discriminate].
Qed.

Lemma hidden_seen (sep : ascii) (n : string) :
  n <> "" -> hidden (seen_name sep n) = hidden n.
Proof. now destruct n. Qed.

Lemma find_entry_In (c : string) (x : node) (es : list (string * node)) :
  find_entry c es = Some x -> In c (map fst es).
Proof.
  intros H. destruct (in_dec string_dec c (map fst es)) as [Hin|Hout]; [exact Hin|].
  apply find_entry_none in Hout. congruence.
Qed.

Lemma In_find_entry (c : string) (es : list (string * node)) :
  In c (map fst es) -> exists x, find_entry c es = Some x.
Proof.
  intros H. destruct (find_entry c es) as [x|] eqn:E; [now exists x|].
  now apply find_entry_none in E.
Qed.

Lemma names_set_entry_keep (f : string -> bool) (c : string) (x : node)
      (es : list (string * node)) :
  f c = false ->
  filter f (map fst (set_entry c x es)) = filter f (map fst es).
Proof.
  intros Hc. induction es as [|[k y] es IH]; simpl.
  - now rewrite Hc.
  - destruct (String.eqb k c); simpl; [reflexivity|]. now rewrite IH.
Qed.

Section ScanThen.

Variables (sep : ascii) (d : Dir).
Hypothesis Hsep : sep <> "/"%char.

(** The names of [cur] after the scan: those it had, and names the scan
    wrote. *)
Lemma cur_after (names : list string) :
  Forall entry_name names ->
  forall (fs : FS) (ces : list (string * node)),
    entries_at (sub d "cur") fs = Some ces ->
    exists ces',
      entries_at (sub d "cur") (after_renames sep d names fs) = Some ces'
      /\ forall q, In q (map fst ces') ->
                   In q (map fst ces) \/ exists m, In m (visible names) /\ q = seen_name sep m.
Proof.
  induction names as [|n names IH]; intros Hnames fs ces Hc.
  - exists ces. split; [exact Hc | now left].
  - inversion Hnames as [|? ? Hn Hnames']; subst.
    cbn [after_renames visible filter]. destruct (hidden n); cbn [negb]; [now apply IH|].
    destruct (seen_rename_cases sep d Hsep n fs Hn)
      as (e & fs' & -> & [[_ ->]|(_ & (x & nes & ces0 & H1 & H2 & H3 & H4 & H5) & _)]).
    + destruct (IH Hnames' fs ces Hc) as (ces' & Hc' & Hq). exists ces'. split; [exact Hc'|].
      intros q Hin. destruct (Hq q Hin) as [|(m & Hm & ->)]; [now left|].
      right. exists m. split; [now right | reflexivity].
    + rewrite Hc in H3. injection H3 as <-.
      destruct (IH Hnames' fs' _ H5) as (ces' & Hc' & Hq). exists ces'. split; [exact Hc'|].
      intros q Hin. destruct (Hq q Hin) as [Hold|(m & Hm & ->)].
      * apply names_set_entry in Hold as [->|Hold]; [|now left].
        right. exists n. split; [now left | reflexivity].
      * right. exists m. split; [now right | reflexivity].
Qed.

(** After the turn of [n], the names of [cur] that match [n*] stay what
    they are. *)
Lemma matches_kept (n : string) (names : list string) :
  contains sep n = false ->
  Forall entry_name names ->
  (forall m, In m names -> has_prefix n m = false) ->
  forall (fs : FS),
    renames_succeed sep d names fs ->
    filter (key_matches n) (names_at (sub d "cur") (after_renames sep d names fs))
    = filter (key_matches n) (names_at (sub d "cur") fs).
Proof.
  intros Hn_sep. induction names as [|m names IH]; intros Hnames Hfree fs Hok; [reflexivity|].
  inversion Hnames as [|? ? Hm Hnames']; subst.
  assert (Hfree' : forall r, In r names -> has_prefix n r = false)
    by (intros r Hr; apply Hfree; now right).
  cbn [renames_succeed after_renames] in *. destruct (hidden m); [now apply IH|].
  destruct Hok as (fs1 & Hr & Hok). rewrite Hr.
  destruct (seen_rename_ok sep d Hsep m fs fs1 Hm Hr) as (x & nes & ces & H1 & H2 & H3 & H4 & H5).
  rewrite IH by assumption. unfold names_at. rewrite H3, H5.
  apply names_set_entry_keep. apply key_matches_prefix.
  destruct (has_prefix n (seen_name sep m)) eqn:E; [|reflexivity].
  unfold seen_name in E. apply has_prefix_before_sep in E; [|exact Hn_sep].
  rewrite Hfree in E; [discriminate | now left].
Qed.

(** The scan leaves in [cur] exactly one name that matches [n*], the one
    it wrote for [n], when no other name around starts with [n]. *)
Lemma scan_unique (n : string) (names : list string) :
  contains sep n = false ->
  Forall entry_name names ->
  (forall m, In m names -> m <> n -> has_prefix n m = false) ->
  forall (fs : FS),
    renames_succeed sep d names fs ->
    filter (key_matches n) (names_at (sub d "cur") fs) = [] ->
    In n (visible names) ->
    filter (key_matches n) (names_at (sub d "cur") (after_renames sep d names fs))
    = [seen_name sep n].
Proof.
  intros Hn_sep. induction names as [|m names IH]; intros Hnames Hfree fs Hok Hnone Hin;
    [contradiction|].
  inversion Hnames as [|? ? Hm Hnames']; subst.
  assert (Hfree' : forall r, In r names -> r <> n -> has_prefix n r = false)
    by (intros r Hr; apply Hfree; now right).
  pose proof (sources_present sep d Hsep names Hnames') as Hsrc.
  cbn [renames_succeed after_renames visible filter] in *.
  destruct (hidden m) eqn:Eh; cbn [negb] in *; [now apply IH|].
  destruct Hok as (fs1 & Hr & Hok). rewrite Hr.
  destruct (seen_rename_ok sep d Hsep m fs fs1 Hm Hr) as (x & nes & ces & H1 & H2 & H3 & H4 & H5).
  unfold names_at in Hnone. rewrite H3 in Hnone.
  destruct (String.eqb_spec m n) as [->|Hmn].
  - assert (Hgone : forall r, In r names -> r <> n).
    { intros r Hr' ->. apply (Hsrc fs1 Hok n).
      - apply filter_In. split; [exact Hr' | now rewrite Eh].
      - rewrite lookup_snoc, H4. apply find_entry_remove_same. }
    rewrite matches_kept; [|assumption..|intros r Hr'; apply Hfree'; auto|assumption].
    unfold names_at. rewrite H5.
    assert (Habs : find_entry (seen_name sep n) ces = None).
    { apply find_entry_none. intros Hc.
      assert (Hf : In (seen_name sep n) (filter (key_matches n) (map fst ces))).
      { apply filter_In. split; [exact Hc | now apply key_matches_seen]. }
      now rewrite Hnone in Hf. }
    rewrite set_entry_absent, map_app, filter_app, Hnone by exact Habs.
    simpl. now rewrite key_matches_seen.
  - destruct Hin as [E|Hin]; [contradiction|].
    apply IH; auto. unfold names_at. rewrite H5.
    rewrite names_set_entry_keep; [exact Hnone|].
    apply key_matches_prefix.
    destruct (has_prefix n (seen_name sep m)) eqn:E; [|reflexivity].
    unfold seen_name in E. apply has_prefix_before_sep in E; [|exact Hn_sep].
    rewrite Hfree in E; [discriminate | now left | exact Hmn].
Qed.

End ScanThen.

(** X8: with the colon as separator, [Keys] called after [Unseen] lists
    every key [Unseen] returned, when every rename of the scan succeeded.
    The names of [new] are names a directory can hold, and the visible
    names of [new] and of [cur] have a key. *)
Theorem Unseen_then_Keys (d : Dir) (fs : FS) (nes ces : list (string * node)) :
  entries_at (sub d "new") fs = Some nes ->
  entries_at (sub d "cur") fs = Some ces ->
  Forall entry_name (map fst nes) ->
  Forall (has_key ":") (visible (map fst nes)) ->
  renames_succeed ":" d (map fst nes) fs ->
  Forall (fun c => c <> "") (map fst ces) ->
  Forall (has_key ":") (visible (map fst ces)) ->
  exists keys fs' keys',
    Unseen ":" d fs = Ret (keys, None) fs'
    /\ Keys d fs' = Ret (keys', None) fs'
    /\ incl keys keys'.
Proof.
  intros Hn Hc Hnames Hkeys Hok Hcne Hckeys.
  assert (Hsep : ":"%char <> "/"%char) by discriminate.
  destruct (cur_after ":" d Hsep (map fst nes) Hnames fs ces Hc) as (ces' & Hc' & Hq).
  set (fs' := after_renames ":" d (map fst nes) fs) in *.
  assert (Hold : forall q, In q (map fst ces') ->
                 q <> "" /\ (hidden q = false -> has_key ":" q)).
  { intros q Hin. rewrite Forall_forall in *. destruct (Hq q Hin) as [Ho|(m & Hm & ->)].
    - split; [now apply Hcne|]. intros Hv. apply Hckeys, filter_In. now rewrite Hv.
    - split; [apply append_not_empty|]. intros _. now apply key_of_seen, Hkeys. }
  exists (map (key_of ":") (visible (map fst nes))), fs',
    (map (key_of ":") (visible (map fst ces'))).
  split; [|split].
  - rewrite (Unseen_listed ":" d (map fst nes) fs)
      by (rewrite (Join_sub d "new" entry_name_new); now apply Readdirnames_entries).
    rewrite Unseen_loop_keys; auto using entry_names_nonempty.
  - rewrite (Keys_listed d ces' fs' Hc'), Keys_loop_keys; [reflexivity| |].
    + rewrite Forall_forall. intros q Hin. now apply Hold.
    + rewrite Forall_forall. intros q Hin. apply filter_In in Hin as [Hin Hv].
      apply Hold; [exact Hin | now destruct (hidden q)].
  - intros k Hk. apply in_map_iff in Hk as (n & <- & Hin).
    assert (Hn_in : In n (map fst nes)) by now apply filter_In in Hin.
    destruct (In_find_entry n nes Hn_in) as (x & Hx).
    destruct (scan_moves ":" d Hsep (map fst nes) Hnames fs Hok n x Hin) as [Hmoved _].
    { now rewrite lookup_snoc, Hn. }
    fold fs' in Hmoved. rewrite lookup_snoc, Hc' in Hmoved. apply find_entry_In in Hmoved.
    rewrite Forall_forall in Hkeys, Hnames.
    rewrite <- (proj1 (key_of_seen ":" n (Hkeys n Hin))).
    apply in_map, filter_In. split; [exact Hmoved|].
    rewrite hidden_seen by apply (Hnames n Hn_in).
    now apply filter_In in Hin.
Qed.

Lemma Unseen_then_Keys_witness :
  exists keys fs' keys',
    Unseen ":" "m" (mailbox [] [("a", File []); ("b:x", File [])] [("old:2,S", File [])])
    = Ret (keys, None) fs'
    /\ Keys "m" fs' = Ret (keys', None) fs'
    /\ incl keys keys'.
Proof.
  apply (Unseen_then_Keys "m" _ [("a", File []); ("b:x", File [])] [("old:2,S", File [])]).
  - reflexivity.
  - reflexivity.
  - entry_names.
  - repeat constructor; discriminate.
  - renames_done.
  - repeat constructor; discriminate.
  - repeat constructor; discriminate.
Defined.

(** X9: below a root path without metacharacter, [Filename] resolves a
    key [Unseen] returned, and the tests' [cat] and [exists] find the
    content that was in [new]: for a visible entry [n] of [new], a regular
    file with bytes [data], whose name has no metacharacter and no
    separator (it is its own key), when no other entry of [new] and no
    entry of [cur] has a name that starts with [n] and every rename of the
    scan succeeds.  The separator is not the slash, the names of [new] are
    names a directory can hold and the visible ones have a key. *)
Theorem Unseen_then_Filename
    (sep : ascii) (d : Dir) (fs : FS) (nes : list (string * node)) (n : string)
    (data : list byte) :
  sep <> "/"%char -> plain d ->
  entries_at (sub d "new") fs = Some nes ->
  Forall entry_name (map fst nes) ->
  Forall (has_key sep) (visible (map fst nes)) ->
  renames_succeed sep d (map fst nes) fs ->
  In n (visible (map fst nes)) ->
  find_entry n nes = Some (File data) ->
  plain n -> contains sep n = false ->
  (forall m, In m (map fst nes) -> m <> n -> has_prefix n m = false) ->
  (forall c, In c (names_at (sub d "cur") fs) -> has_prefix n c = false) ->
  exists keys fs' p,
    Unseen sep d fs = Ret (keys, None) fs'
    /\ In n keys
    /\ Filename d n fs' = Ret (p, None) fs'
    /\ p = sub d "cur" ++ [seen_name sep n]
    /\ exists_ p fs' = Ret true fs'
    /\ cat p fs' = Ret (string_of_list_byte data, None) fs'.
Proof.
  intros Hsep Hd Hn Hnames Hkeys Hok Hin Hfile Hplain Hnsep Hnew Hcur.
  assert (Hn_name : entry_name n).
  { rewrite Forall_forall in Hnames. apply Hnames. now apply filter_In in Hin. }
  set (fs' := after_renames sep d (map fst nes) fs).
  assert (Hone : filter (key_matches n) (names_at (sub d "cur") fs') = [seen_name sep n]).
  { apply scan_unique; auto. apply filter_none. intros c Hc.
    now apply key_matches_prefix, Hcur. }
  destruct (scan_moves sep d Hsep (map fst nes) Hnames fs Hok n (File data) Hin)
    as [Hmoved _].
  { now rewrite lookup_snoc, Hn. }
  fold fs' in Hmoved.
  exists (map (key_of sep) (visible (map fst nes))), fs', (sub d "cur" ++ [seen_name sep n]).
  split; [|split; [|split; [|split; [|split]]]].
  - rewrite (Unseen_listed sep d (map fst nes) fs)
      by (rewrite (Join_sub d "new" entry_name_new); now apply Readdirnames_entries).
    rewrite Unseen_loop_keys; auto using entry_names_nonempty.
  - rewrite <- (proj1 (key_of_no_separator sep n (proj1 Hn_name) Hnsep)) at 1.
    now apply in_map.
  - rewrite Filename_plain by (auto; apply Hn_name).
    now rewrite (candidates_single d n (seen_name sep n) fs'
                   (entry_name_seen sep n Hsep Hn_name) Hone).
  - reflexivity.
  - unfold exists_, os.Stat, bind, ret. now rewrite Hmoved.
  - unfold cat, bind, ret, os.Open. rewrite Hmoved. cbv beta iota.
    unfold os.ReadAll. now rewrite Hmoved.
Qed.

Lemma Unseen_then_Filename_witness :
  exists keys fs' p,
    Unseen ":" "m" (mailbox [] [("a", File [x68]); ("b", File [x69])] [("old:2,S", File [])])
    = Ret (keys, None) fs'
    /\ In "b" keys
    /\ Filename "m" "b" fs' = Ret (p, None) fs'
    /\ p = sub "m" "cur" ++ [seen_name ":" "b"]
    /\ exists_ p fs' = Ret true fs'
    /\ cat p fs' = Ret (string_of_list_byte [x69], None) fs'.
Proof.
  apply (Unseen_then_Filename ":" "m" _ [("a", File [x68]); ("b", File [x69])] "b" [x69]);
    try reflexivity; try discriminate.
  - entry_names.
  - repeat constructor; discriminate.
  - renames_done.
  - vm_compute. auto.
  - intros m [<-|[<-|[]]] Hm; [reflexivity | now contradiction Hm].
  - intros c [<-|[]]. reflexivity.
Defined.

(** ** The errors of [Match], [Glob] and [Filename] *)

Lemma matchChunkLoop_error (fuel : nat) :
  forall chunk s failed t ok e,
    filepath.matchChunkLoop fuel chunk s failed = (t, ok, Some e) -> e = ErrBadPattern.
Proof.
  induction fuel as [|fuel IH]; intros chunk s failed t ok e H.
  - simpl in H. congruence.
  - cbn [filepath.matchChunkLoop] in H.
    break_in H; try congruence; eauto.
Qed.

Lemma matchChunk_error (chunk s t : string) (ok : bool) (e : error) :
  filepath.matchChunk chunk s = (t, ok, Some e) -> e = ErrBadPattern.
Proof. apply matchChunkLoop_error. Qed.

Lemma starSearch_error (chunk : string) (last : bool) (name : string) (e : error) :
  filepath.starSearch chunk last name = filepath.SearchError e -> e = ErrBadPattern.
Proof.
  induction name as [|c name IH]; simpl; [discriminate|].
  intros H. break_in H; try congruence; eauto.
  injection H as <-. eapply matchChunk_error; eauto.
Qed.

Lemma checkRest_error (fuel : nat) :
  forall pattern e, filepath.checkRest fuel pattern = Some e -> e = ErrBadPattern.
Proof.
  induction fuel as [|fuel IH]; intros pattern e H; simpl in H; [discriminate|].
  break_in H; try congruence; eauto.
  injection H as <-. eapply matchChunk_error; eauto.
Qed.

Lemma MatchLoop_error (fuel : nat) :
  forall pattern name b e,
    filepath.MatchLoop fuel pattern name = (b, Some e) -> e = ErrBadPattern.
Proof.
  induction fuel as [|fuel IH]; intros pattern name b e H.
  - simpl in H. congruence.
  - cbn [filepath.MatchLoop] in H.
    break_in H; try congruence; eauto.
    all: try (injection H as _ <-).
    all: try (eapply matchChunk_error; eauto; fail).
    all: try (eapply starSearch_error; eauto; fail).
    all: try (eapply checkRest_error; eauto; fail).
Qed.

(** The only error of [Match] is [ErrBadPattern]. *)
Lemma Match_error (pattern name : string) (b : bool) (e : error) :
  filepath.Match pattern name = (b, Some e) -> e = ErrBadPattern.
Proof. apply MatchLoop_error. Qed.

Lemma glob_names_error (dir : path) (pattern : string) (names : list string) :
  forall matches m e,
    filepath.glob_names dir pattern names matches = (m, Some e) -> e = ErrBadPattern.
Proof.
  induction names as [|n names IH]; intros matches m e H; simpl in H; [discriminate|].
  destruct (filepath.Match pattern n) as [b [e'|]] eqn:EM.
  - destruct b; injection H as _ <-; eapply Match_error; eauto.
  - destruct b; eapply IH; eauto.
Qed.

Lemma glob_error (dir : path) (pattern : string) (matches m : list path) (fs : FS) (e : error) :
  filepath.glob dir pattern matches fs = (m, Some e) -> e = ErrBadPattern.
Proof.
  unfold filepath.glob. destruct (os.Lstat dir fs) as [[data|es]|]; try discriminate.
  apply glob_names_error.
Qed.

Lemma glob_each_error (dirs : list path) (pattern : string) (fs : FS) :
  forall matches m e,
    filepath.glob_each dirs pattern matches fs = (m, Some e) -> e = ErrBadPattern.
Proof.
  induction dirs as [|dir dirs IH]; intros matches m e H; simpl in H; [discriminate|].
  destruct (filepath.glob dir pattern matches fs) as [m' [e'|]] eqn:EG.
  - injection H as _ <-. eapply glob_error; eauto.
  - eapply IH; eauto.
Qed.

(** The only error of [Glob] is [ErrBadPattern]: what it cannot read, it
    passes over. *)
Lemma GlobRev_error (rpattern : list string) (fs : FS) :
  forall m e, filepath.GlobRev rpattern fs = (m, Some e) -> e = ErrBadPattern.
Proof.
  induction rpattern as [|file rdir IH]; intros m e H.
  - cbn [filepath.GlobRev] in H.
    destruct (filepath.Match _ _) as [b [e'|]] eqn:EM; cbn [snd] in H.
    + injection H as _ <-. eapply Match_error; eauto.
    + break_in H; discriminate.
  - cbn [filepath.GlobRev] in H.
    destruct (filepath.Match _ _) as [b [e'|]] eqn:EM; cbn [snd] in H.
    + injection H as _ <-. eapply Match_error; eauto.
    + destruct (negb (filepath.hasMeta _)); [break_in H; discriminate|].
      destruct (negb (filepath.hasMeta _)); [eapply glob_error; eauto|].
      destruct (filepath.GlobRev rdir fs) as [m' [e'|]] eqn:EG.
      * injection H as _ <-. eapply IH; eauto.
      * eapply glob_each_error; eauto.
Qed.

(** X10: [Filename] returns either a path and a nil error, or the empty
    path and an error that is [ErrBadPattern] or a [KeyError] with the key
    it was given and a number of matches other than one: what [Glob]
    cannot read (a missing [cur]) comes back as zero matches, never as an
    error of the file system. *)
Theorem Filename_error_kinds (d : Dir) (k : string) (fs fs' : FS) (p : path) (e : error) :
  Filename d k fs = Ret (p, Some e) fs' ->
  p = [] /\ fs' = fs
  /\ (e = ErrBadPattern \/ exists N : nat, e = KeyError k (Z.of_nat N) /\ N <> 1).
Proof.
  unfold Filename, bind, ret, filepath.Glob.
  destruct (filepath.GlobRev _ fs) as [matches [e'|]] eqn:EG.
  - intros [= <- <- <-]. repeat split. left. eapply GlobRev_error; eauto.
  - destruct (Z.eqb_spec (Z.of_nat (List.length matches)) 1) as [E|E]; [discriminate|].
    simpl. intros [= <- <- <-]. repeat split. right.
    exists (List.length matches). split; [reflexivity | lia].
Qed.

Lemma Filename_error_kinds_witness :
  [] = ([] : path) /\ mailbox [] [] [] = mailbox [] [] []
  /\ (KeyError "a" 0 = ErrBadPattern
      \/ exists N : nat, KeyError "a" 0 = KeyError "a" (Z.of_nat N) /\ N <> 1).
Proof.
  apply (Filename_error_kinds "m" "a" (mailbox [] [] []) (mailbox [] [] [])). reflexivity.
Defined.

(** X11: [Filename] succeeds exactly when one entry of [cur] has a name
    that starts with the key, and then returns the path of that entry,
    which is in the tree.  The key and the root path have no metacharacter
    and the key no slash. *)
Theorem Filename_succeeds_iff (d : Dir) (k : string) (fs : FS) (p : path) :
  plain d -> plain k -> contains "/" k = false ->
  Forall entry_name (names_at (sub d "cur") fs) ->
  (Filename d k fs = Ret (p, None) fs
   <-> exists n, filter (has_prefix k) (names_at (sub d "cur") fs) = [n]
                 /\ p = sub d "cur" ++ [n])
  /\ (Filename d k fs = Ret (p, None) fs -> lookup p fs <> None).
Proof.
  intros Hd Hk Hs Hnames.
  assert (Hiff : Filename d k fs = Ret (p, None) fs
                 <-> exists n, filter (has_prefix k) (names_at (sub d "cur") fs) = [n]
                               /\ p = sub d "cur" ++ [n]).
  { rewrite Filename_plain by assumption.
    rewrite <- filter_key_matches by assumption.
    destruct (filter (key_matches k) (names_at (sub d "cur") fs)) as [|n [|n' l]] eqn:EF.
    - rewrite candidates_length, EF. simpl. split; [discriminate | now intros (n & H & _)].
    - assert (Hn : entry_name n).
      { rewrite Forall_forall in Hnames. apply Hnames.
        assert (Hin : In n (filter (key_matches k) (names_at (sub d "cur") fs)))
          by (rewrite EF; now left).
        now apply filter_In in Hin. }
      rewrite (candidates_single d k n fs Hn EF). simpl. split.
      + intros [= <-]. now exists n.
      + intros (m & [= <-] & ->). reflexivity.
    - rewrite candidates_length, EF.
      destruct (Z.eqb_spec (Z.of_nat (List.length (n :: n' :: l))) 1) as [E|E].
      + simpl in E. lia.
      + simpl. split; [discriminate | now intros (m & H & _)]. }
  split; [exact Hiff|].
  intros H. apply Hiff in H as (n & Hn & ->).
  assert (Hin : In n (filter (has_prefix k) (names_at (sub d "cur") fs)))
    by (rewrite Hn; now left).
  apply filter_In in Hin as [Hin _]. unfold names_at in Hin.
  rewrite lookup_snoc. destruct (entries_at (sub d "cur") fs) as [es|]; [|contradiction].
  destruct (In_find_entry n es Hin) as (x & ->). discriminate.
Qed.

Lemma Filename_succeeds_iff_witness :
  (Filename "m" "ab" (mailbox [] [] [("a:2,S", File []); ("ab:2,S", File [])])
   = Ret (["m"; "cur"; "ab:2,S"], None) (mailbox [] [] [("a:2,S", File []); ("ab:2,S", File [])])
   <-> exists n,
         filter (has_prefix "ab")
                (names_at (sub "m" "cur")
                          (mailbox [] [] [("a:2,S", File []); ("ab:2,S", File [])])) = [n]
         /\ ["m"; "cur"; "ab:2,S"] = sub "m" "cur" ++ [n])
  /\ (Filename "m" "ab" (mailbox [] [] [("a:2,S", File []); ("ab:2,S", File [])])
      = Ret (["m"; "cur"; "ab:2,S"], None)
            (mailbox [] [] [("a:2,S", File []); ("ab:2,S", File [])])
      -> lookup ["m"; "cur"; "ab:2,S"]
                (mailbox [] [] [("a:2,S", File []); ("ab:2,S", File [])]) <> None).
Proof.
  apply (Filename_succeeds_iff "m" "ab"); try reflexivity.
  vm_compute. entry_names.
Defined.

(** ** What the readers depend on *)

Lemma Keys_loop_tree (names keys : list string) (fs fs' : FS) (r : list string) :
  Keys_loop names keys fs = Ret r fs -> Keys_loop names keys fs' = Ret r fs'.
Proof.
  intros H. destruct (Keys_loop_returns _ _ _ _ _ H) as [Hne Hk].
  rewrite Keys_loop_keys in * by assumption. now injection H as <-.
Qed.

(** X13: [Keys] and [Filename] (for a key without metacharacter and
    without slash, below a root without metacharacter) depend on the names
    listed in [cur] and on nothing else: in two trees whose [cur] list the
    same names, whatever [new], [tmp] and the contents of the files are,
    they return the same keys and the same path or error. *)
Theorem readers_depend_on_cur_names
    (d : Dir) (k : string) (fs fs' : FS) (es es' : list (string * node)) :
  entries_at (sub d "cur") fs = Some es ->
  entries_at (sub d "cur") fs' = Some es' ->
  map fst es = map fst es' ->
  (forall r, Keys d fs = Ret r fs -> Keys d fs' = Ret r fs')
  /\ (plain d -> plain k -> contains "/" k = false ->
      forall r, Filename d k fs = Ret r fs -> Filename d k fs' = Ret r fs').
Proof.
  intros He He' Hsame. split.
  - intros r. rewrite (Keys_listed d es fs He), (Keys_listed d es' fs' He'), <- Hsame.
    destruct (Keys_loop (map fst es) [] fs) as [keys fs1|msg] eqn:E; [|discriminate].
    intros [= <- <-]. now rewrite (Keys_loop_tree _ _ _ fs' _ E).
  - intros Hd Hk Hs. apply Filename_reads_cur; auto.
    unfold names_at. now rewrite He, He', Hsame.
Qed.

Lemma readers_depend_on_cur_names_witness :
  (forall r, Keys "m" (mailbox [] [] [("a:2,S", File [])])
             = Ret r (mailbox [] [] [("a:2,S", File [])]) ->
             Keys "m" (mailbox [("t", File [])] [("n", File [])] [("a:2,S", File [x01])])
             = Ret r (mailbox [("t", File [])] [("n", File [])] [("a:2,S", File [x01])]))
  /\ (plain "m" -> plain "a" -> contains "/" "a" = false ->
      forall r, Filename "m" "a" (mailbox [] [] [("a:2,S", File [])])
                = Ret r (mailbox [] [] [("a:2,S", File [])]) ->
                Filename "m" "a" (mailbox [("t", File [])] [("n", File [])] [("a:2,S", File [x01])])
                = Ret r (mailbox [("t", File [])] [("n", File [])] [("a:2,S", File [x01])])).
Proof.
  apply (readers_depend_on_cur_names "m" "a" _ _ [("a:2,S", File [])] [("a:2,S", File [x01])]);
    reflexivity.
Defined.

(** ** [Header] and [Message] on a key that resolves *)

Section ReadersSucceed.

Variables (MIMEHeader Message_t : Type).
Variable ReadMIMEHeader : list byte -> MIMEHeader * option error.
Variable ReadMessage : list byte -> option Message_t * option error.
Variable zero_message : Message_t.

(** X14: when exactly one entry of [cur] has a name that starts with the
    key and it is a regular file, [Header] and [Message] hand the parser
    the bytes of that file and nothing else: [Message] returns what
    [mail.ReadMessage] returns on them, [Header] the header that
    [ReadMIMEHeader] reads from them or its error; the tree is left as it
    is. *)
Theorem Header_Message_parse_the_file
    (d : Dir) (k n : string) (fs : FS) (data : list byte) :
  plain d -> plain k -> contains "/" k = false ->
  Forall entry_name (names_at (sub d "cur") fs) ->
  filter (has_prefix k) (names_at (sub d "cur") fs) = [n] ->
  lookup (sub d "cur" ++ [n]) fs = Some (File data) ->
  Message Message_t ReadMessage zero_message d k fs = Ret (ReadMessage data) fs
  /\ Header MIMEHeader ReadMIMEHeader d k fs
     = Ret (match ReadMIMEHeader data with
            | (hdr, None) => (Some hdr, None)
            | (_, Some e) => (None, Some e)
            end) fs.
Proof.
  intros Hd Hk Hs Hnames Hone Hfile.
  assert (HF : Filename d k fs = Ret (sub d "cur" ++ [n], None) fs).
  { rewrite <- filter_key_matches in Hone by assumption.
    assert (Hn : entry_name n).
    { rewrite Forall_forall in Hnames. apply Hnames.
      assert (Hin : In n (filter (key_matches k) (names_at (sub d "cur") fs)))
        by (rewrite Hone; now left).
      now apply filter_In in Hin. }
    rewrite Filename_plain by assumption.
    now rewrite (candidates_single d k n fs Hn Hone). }
  assert (HO : os.Open (sub d "cur" ++ [n]) fs = Ret (sub d "cur" ++ [n], None) fs)
    by (unfold os.Open; now rewrite Hfile).
  assert (HR : os.ReadAll (sub d "cur" ++ [n]) fs = Ret (data, None) fs)
    by (unfold os.ReadAll; now rewrite Hfile).
  unfold Message, Header, bind, ret. rewrite HF. cbv beta iota. rewrite HO. cbv beta iota.
  rewrite HR. cbv beta iota.
  split.
  - now destruct (ReadMessage data) as [msg [e|]].
  - now destruct (ReadMIMEHeader data) as [hdr [e|]].
Qed.

End ReadersSucceed.

Lemma Header_Message_parse_the_file_witness :
  Message (list byte) (fun b => (Some b, None)) [] "m" "a"
          (mailbox [] [] [("a:2,S", File [x68; x69])])
  = Ret ((fun b => (Some b, None)) [x68; x69]) (mailbox [] [] [("a:2,S", File [x68; x69])])
  /\ Header nat (fun b => (List.length b, None)) "m" "a"
            (mailbox [] [] [("a:2,S", File [x68; x69])])
     = Ret (match (fun b : list byte => (List.length b, @None error)) [x68; x69] with
            | (hdr, None) => (Some hdr, None)
            | (_, Some e) => (None, Some e)
            end) (mailbox [] [] [("a:2,S", File [x68; x69])]).
Proof.
  apply (Header_Message_parse_the_file nat (list byte) (fun b => (List.length b, None))
           (fun b => (Some b, None)) [] "m" "a" "a:2,S");
    try reflexivity.
  vm_compute. entry_names.
Defined.

(** ** The message of a [KeyError] *)

Lemma append_cancel_l (p s t : string) : p +:+ s = p +:+ t -> s = t.
Proof. induction p as [|c p IH]; simpl; [auto|]. intros [= H]. now apply IH. Qed.

Lemma uint_no_space (u : Decimal.uint) : contains " " (NilEmpty.string_of_uint u) = false.
Proof. induction u; simpl; auto. Qed.

(** Digits and a minus sign: no space. *)
Lemma Itoa_no_space (i : Z) : contains " " (Itoa i) = false.
Proof.
  unfold Itoa, NilZero.string_of_int, NilZero.string_of_uint.
  destruct (Z.to_int i) as [u|u]; destruct u; simpl; try reflexivity; apply uint_no_space.
Qed.

Lemma Itoa_inj (i j : Z) : Itoa i = Itoa j -> i = j.
Proof.
  unfold Itoa. intros H. apply DecimalZ.to_int_inj.
  assert (Hnil : forall z, Z.to_int z <> Decimal.Pos Decimal.Nil
                           /\ Z.to_int z <> Decimal.Neg Decimal.Nil).
  { intros [|q|q]; simpl; split; try discriminate; intros [= E];
      now apply DecimalPos.Unsigned.to_uint_nonnil in E. }
  assert (Some (Z.to_int i) = Some (Z.to_int j)) as [= E]; [|exact E].
  rewrite <- (NilZero.isi (Z.to_int i)) by apply Hnil.
  rewrite <- (NilZero.isi (Z.to_int j)) by apply Hnil.
  now rewrite H.
Qed.

(** Two texts that end after the same character with tails that do not
    hold it are cut at the same place. *)
Lemma split_at_last (c : ascii) (a b i j : string) :
  contains c i = false -> contains c j = false ->
  a +:+ String c i = b +:+ String c j -> a = b /\ i = j.
Proof.
  intros Hi Hj. revert b. induction a as [|x a IH]; intros [|y b] H; simpl in H.
  - now injection H.
  - injection H as _ H. subst i. rewrite contains_append in Hi. simpl in Hi.
    rewrite Ascii.eqb_refl, orb_true_r in Hi. discriminate.
  - injection H as _ H. subst j. rewrite contains_append in Hj. simpl in Hj.
    rewrite Ascii.eqb_refl, orb_true_r in Hj. discriminate.
  - injection H as -> H. destruct (IH b H) as [-> ->]. auto.
Qed.

(** X15: the message of a [KeyError] tells the key and the number of
    matches apart: two errors with the same message have the same key and
    the same number, whatever the key holds. *)
Theorem KeyError_Error_injective (k k' : string) (N N' : Z) :
  KeyError_Error k N = KeyError_Error k' N' -> k = k' /\ N = N'.
Proof.
  unfold KeyError_Error. intros H.
  apply append_cancel_l in H.
  change (" matches " +:+ Itoa N +:+ " files.")
    with (" matches" +:+ String " " (Itoa N +:+ " files.")) in H.
  change (" matches " +:+ Itoa N' +:+ " files.")
    with (" matches" +:+ String " " (Itoa N' +:+ " files.")) in H.
  rewrite <- !append_assoc in H.
  assert (H' : ((k +:+ " matches") +:+ String " " (Itoa N)) +:+ " files."
               = ((k' +:+ " matches") +:+ String " " (Itoa N')) +:+ " files.").
  { rewrite !append_assoc. simpl. rewrite !append_assoc in H. exact H. }
  apply append_cancel_r in H'.
  apply split_at_last in H' as [Hk HN]; try apply Itoa_no_space.
  split; [now apply append_cancel_r in Hk | now apply Itoa_inj].
Qed.

Lemma KeyError_Error_injective_witness : "a b" = "a b" /\ 2%Z = 2%Z.
Proof. apply (KeyError_Error_injective "a b" "a b" 2 2). reflexivity. Defined.
